(** * StakeFit: community challenges and invite fan-out

    A shallow embedding of the community-challenge router
    (Backend: [router.post('/create')], ['/join/:challengeId'],
    ['/accept/:challengeId'], ['/complete/:challengeId'] and
    [initializeRouter]) together with the properties its specification
    states about it.

    The handlers are [async] functions that talk to three mongoose
    collections and to a socket.io server.  They are embedded in a small
    state-and-exception monad over a [World] that holds the collections,
    the two module-level variables [io] and [userSockets], an event trace
    and the oracles that stand for the environment (store outcomes, the
    connection events, the clock and the ObjectId generator).

    What the embedding takes for granted:
    - request bodies and route parameters have the types of the HTTP
      interface (strings for ids, a [stake] object with an [amount]);
    - while a handler awaits the store, connection callbacks may rewrite the
      registry, but no other handler writes to the collections;
    - the registry is read as a map: its keys are ObjectId strings, which
      never name an inherited property of a JavaScript object. *)

From stdpp Require Import gmap strings list fin_maps pretty.

Open Scope string_scope.
Open Scope list_scope.

(** ** Data model *)

(** ObjectIds are kept in their hexadecimal string form; [toString] is then
    the identity, and a route or body parameter is compared to a stored id
    as the source does, on strings. *)
Abbreviation ObjectId := string (only parsing).
Abbreviation Date := Z (only parsing).

Definition toString (o : ObjectId) : string := o.

(** Modelled from the spec: the schema [Model/communityChallenge] is not
    part of the sources at hand.  The spec gives a stake as an amount with a
    currency or asset, exercises as an ordered sequence of descriptors, and a
    participant as a user identity with three flags, all false when the
    entry is appended, and an optional completion time. *)
Record Stake := { amount : Z; currency : string }.

Abbreviation Exercise := string (only parsing).

Record Participant := {
  p_userId : ObjectId;
  accepted : bool;
  stakeSubmitted : bool;
  completed : bool;
  completedAt : option Date }.

Record ChallengeFields := {
  c_communityId : ObjectId;
  c_name : string;
  c_description : string;
  c_exercises : list Exercise;
  c_stake : Stake;
  c_participants : list Participant }.

(** A challenge document: the fields with the [_id] it is stored under. *)
Record Challenge := { c_id : ObjectId; c_fields : ChallengeFields }.

Definition participants (c : Challenge) : list Participant :=
  c_participants (c_fields c).

(** Modelled from the spec: the schema [Model/community] is not part of the
    sources at hand; the handler reads [community.members] and, of each
    member, [userId]. *)
Record Member := { m_userId : ObjectId }.
Record Community := { members : list Member }.

(** The [data] payload of an invite. *)
Record InviteData := {
  challengeId : ObjectId;
  communityId : ObjectId;
  stakeAmount : Z;
  challengeName : string;
  challengeDescription : string }.

(** The plain object built by the handler, before the store assigns an id. *)
Record NotificationDoc := {
  d_userId : ObjectId;
  d_type : string;
  d_title : string;
  d_description : string;
  d_data : InviteData;
  d_read : bool;
  d_createdAt : Date }.

(** A persisted notification: the document with its server-assigned [_id]. *)
Record Notification := { n_id : ObjectId; n_doc : NotificationDoc }.

Definition n_userId (n : Notification) : ObjectId := d_userId (n_doc n).

(** The body of [POST /create]. *)
Record CreateBody := {
  b_communityId : ObjectId;
  b_name : string;
  b_description : string;
  b_exercises : list Exercise;
  b_stake : Stake }.

(** ** Responses and exceptions *)

Inductive Json :=
| JMessage (message : string)
| JError (error : string)
| JChallenge (challenge : Challenge)
| JResult (message : string) (challenge : Challenge).

Record Response := { status : nat; json : Json }.

Definition res (code : nat) (j : Json) : Response := {| status := code; json := j |}.

Inductive Exn :=
| TypeError (msg : string)
| StoreError (msg : string).

Definition message (e : Exn) : string :=
  match e with TypeError m => m | StoreError m => m end.

(** ** The world the handlers run in *)

Inductive SocketIO := SocketIOServer.

(** What a handler did, in the order it did it: the store calls it issued
    and the pushes it emitted.  A write is recorded when it took effect, a
    query when it was issued. *)
Inductive Event :=
| EvFindChallenge (id : string)
| EvFindCommunity (id : string)
| EvSaveChallenge (c : Challenge)
| EvInsertNotification (n : Notification)
| EvEmit (socketId : string) (event : string) (payload : Notification).

(** The challenge and community collections are keyed by [_id]. *)
Record Db := {
  challenges : gmap string ChallengeFields;
  communities : gmap string Community;
  notifications : list Notification }.

(** The environment: [fault k] is the outcome of the [k]-th store call
    ([None]: it succeeds; [Some j]: it rejects, after [j] documents of a
    bulk write were stored), [connects k] what the connection events that
    run while the handler awaits that call do to the registry, [clock k] the
    [k]-th reading of the clock and [oid k] the [k]-th generated ObjectId. *)
Record Env := {
  fault : nat → option nat;
  connects : nat → gmap string string → gmap string string;
  clock : nat → Date;
  oid : nat → ObjectId }.

Record World := {
  env : Env;
  db_calls : nat;
  ticks : nat;
  oids : nat;
  db : Db;
  io : option SocketIO;
  userSockets : option (gmap string string);
  trace : list Event }.

Definition with_db (d : Db) (w : World) : World :=
  {| env := env w; db_calls := db_calls w; ticks := ticks w; oids := oids w;
     db := d; io := io w; userSockets := userSockets w; trace := trace w |}.

Definition with_trace (t : list Event) (w : World) : World :=
  {| env := env w; db_calls := db_calls w; ticks := ticks w; oids := oids w;
     db := db w; io := io w; userSockets := userSockets w; trace := t |}.

Definition with_db_calls (k : nat) (w : World) : World :=
  {| env := env w; db_calls := k; ticks := ticks w; oids := oids w;
     db := db w; io := io w; userSockets := userSockets w; trace := trace w |}.

Definition with_ticks (k : nat) (w : World) : World :=
  {| env := env w; db_calls := db_calls w; ticks := k; oids := oids w;
     db := db w; io := io w; userSockets := userSockets w; trace := trace w |}.

Definition with_oids (k : nat) (w : World) : World :=
  {| env := env w; db_calls := db_calls w; ticks := ticks w; oids := k;
     db := db w; io := io w; userSockets := userSockets w; trace := trace w |}.

Definition with_sockets (s : option SocketIO) (u : option (gmap string string))
    (w : World) : World :=
  {| env := env w; db_calls := db_calls w; ticks := ticks w; oids := oids w;
     db := db w; io := s; userSockets := u; trace := trace w |}.

Definition with_challenges (m : gmap string ChallengeFields) (d : Db) : Db :=
  {| challenges := m; communities := communities d; notifications := notifications d |}.

Definition with_notifications (l : list Notification) (d : Db) : Db :=
  {| challenges := challenges d; communities := communities d; notifications := l |}.

(** ** The monad: state over [World], with exceptions *)

Definition M (A : Type) : Type := World → World * (Exn + A).

Definition ret {A} (a : A) : M A := λ w, (w, inr a).

Definition bind {A B} (m : M A) (k : A → M B) : M B :=
  λ w, match m w with
       | (w', inr a) => k a w'
       | (w', inl e) => (w', inl e)
       end.

Definition throw {A} (e : Exn) : M A := λ w, (w, inl e).

(** [try { m } catch (err) { h err }]: what [m] did to the world before it
    threw stays done. *)
Definition try_catch {A} (m : M A) (h : Exn → M A) : M A :=
  λ w, match m w with
       | (w', inr a) => (w', inr a)
       | (w', inl e) => h e w'
       end.

Definition get : M World := λ w, (w, inr w).
Definition modify (f : World → World) : M unit := λ w, (f w, inr tt).

Declare Scope js_scope.
Delimit Scope js_scope with js.
Notation "'let*' x := m 'in' k" := (bind m (λ x, k))
  (at level 10, x name, m at level 100, k at level 200) : js_scope.
Notation "m ;; k" := (bind m (λ _, k))
  (at level 100, k at level 200, right associativity) : js_scope.
Open Scope js_scope.

Fixpoint mapM {A B} (f : A → M B) (l : list A) : M (list B) :=
  match l with
  | [] => ret []
  | x :: l' => let* y := f x in let* ys := mapM f l' in ret (y :: ys)
  end.

Fixpoint forEach {A} (f : A → M unit) (l : list A) : M unit :=
  match l with
  | [] => ret tt
  | x :: l' => f x ;; forEach f l'
  end.

(** ** Environment primitives *)

Definition log (e : Event) : M unit := modify (λ w, with_trace (trace w ++ [e]) w).

(** [new Date()] *)
Definition new_Date : M Date :=
  λ w, (with_ticks (S (ticks w)) w, inr (clock (env w) (ticks w))).

(** A freshly generated ObjectId. *)
Definition new_ObjectId : M ObjectId :=
  λ w, (with_oids (S (oids w)) w, inr (oid (env w) (oids w))).

(** The world after one more awaited store call: [userSockets] refers to
    the registry object the socket server shares with the router, and the
    connect and disconnect callbacks write to it while the handler waits. *)
Definition called (w : World) : World :=
  with_sockets (io w) (connects (env w) (db_calls w) <$> userSockets w)
    (with_db_calls (S (db_calls w)) w).

(** An awaited store call, with the outcome the environment has in store
    for it. *)
Definition store_call : M (option nat) :=
  λ w, (called w, inr (fault (env w) (db_calls w))).

Definition store_failure : Exn := StoreError "store failure".

(** Reading [x.participants] when [x] is [null]. *)
Definition null_participants : Exn :=
  TypeError "Cannot read properties of null (reading 'participants')".

(** ** The three collections *)

(** [await Model.findById(id)] *)
Definition CommunityChallenge_findById (id : string) : M (option Challenge) :=
  log (EvFindChallenge id) ;;
  let* o := store_call in
  match o with
  | Some _ => throw store_failure
  | None =>
      let* w := get in
      ret ((λ f, {| c_id := id; c_fields := f |}) <$> challenges (db w) !! id)
  end.

Definition Community_findById (id : string) : M (option Community) :=
  log (EvFindCommunity id) ;;
  let* o := store_call in
  match o with
  | Some _ => throw store_failure
  | None => let* w := get in ret (communities (db w) !! id)
  end.

(** [await challenge.save()]: the document is written under its [_id]. *)
Definition save (c : Challenge) : M Challenge :=
  let* o := store_call in
  match o with
  | Some _ => throw store_failure
  | None =>
      modify (λ w, with_db (with_challenges (<[c_id c := c_fields c]> (challenges (db w)))
                              (db w)) w) ;;
      log (EvSaveChallenge c) ;;
      ret c
  end.

(** One document of a bulk insert: it gets its [_id] and is appended. *)
Definition insertOne (d : NotificationDoc) : M Notification :=
  let* i := new_ObjectId in
  let n := {| n_id := i; n_doc := d |} in
  modify (λ w, with_db (with_notifications (notifications (db w) ++ [n]) (db w)) w) ;;
  log (EvInsertNotification n) ;;
  ret n.

(** [await Notification.insertMany(docs)]: one bulk write.  When the store
    rejects it after [j] documents, those [j] stay stored and the call
    throws. *)
Definition Notification_insertMany (docs : list NotificationDoc) : M (list Notification) :=
  let* o := store_call in
  match o with
  | Some j => mapM insertOne (take j docs) ;; throw store_failure
  | None => mapM insertOne docs
  end.

(** [new communityChallenge({...})]: the document gets its [_id] when it is
    built. *)
Definition new_communityChallenge (communityId name description : string)
    (exercises : list Exercise) (stake : Stake) (ps : list Participant) : M Challenge :=
  let* i := new_ObjectId in
  ret {| c_id := i;
         c_fields := {| c_communityId := communityId; c_name := name;
                        c_description := description; c_exercises := exercises;
                        c_stake := stake; c_participants := ps |} |}.

(** ** The router *)

(** [initializeRouter(socketIO, socketUsers)] *)
Definition initializeRouter (socketIO : option SocketIO)
    (socketUsers : option (gmap string string)) : M unit :=
  modify (with_sockets socketIO socketUsers).

(** [io.to(socketId).emit(event, payload)] *)
Definition emit (socketId event : string) (payload : Notification) : M unit :=
  log (EvEmit socketId event payload).

(** Truthiness of a string: only the empty string is falsy. *)
Definition truthy (s : string) : bool :=
  match s with EmptyString => false | String _ _ => true end.

Definition dquote : string := String (Ascii.ascii_of_nat 34) EmptyString.

Definition invite_title (name : string) : string := "New Challenge: " +:+ name.

Definition invite_description (name : string) : string :=
  "You've been invited to join " +:+ dquote +:+ name +:+ dquote +:+ " challenge".

Definition invite_data (saved : Challenge) (body : CreateBody) : InviteData :=
  {| challengeId := c_id saved;
     communityId := b_communityId body;
     stakeAmount := amount (b_stake body);
     challengeName := b_name body;
     challengeDescription := b_description body |}.

Definition invite_doc (saved : Challenge) (body : CreateBody) (userId : ObjectId)
    (createdAt : Date) : NotificationDoc :=
  {| d_userId := userId;
     d_type := "challenge_invite";
     d_title := invite_title (b_name body);
     d_description := invite_description (b_name body);
     d_data := invite_data saved body;
     d_read := false;
     d_createdAt := createdAt |}.

(** The callback of [memberIds.map(userId => ...)]. *)
Definition invite (saved : Challenge) (body : CreateBody) (userId : ObjectId)
    : M NotificationDoc :=
  let* createdAt := new_Date in
  ret (invite_doc saved body userId createdAt).

(** The callback of [savedNotifications.forEach(notification => ...)]. *)
Definition push (sockets : gmap string string) (notification : Notification) : M unit :=
  match sockets !! toString (n_userId notification) with
  | Some socketId =>
      if truthy socketId then emit socketId "new_notification" notification else ret tt
  | None => ret tt
  end.

(** The [catch (err)] of [/create] answers with a [message] field, the
    others with an [error] field. *)
Definition catch_message (err : Exn) : M Response := ret (res 500 (JMessage (message err))).
Definition catch_error (err : Exn) : M Response := ret (res 500 (JError (message err))).

(** [router.post('/create')] *)
Definition create (body : CreateBody) : M Response :=
  try_catch
    (let* challenge :=
       new_communityChallenge (b_communityId body) (b_name body) (b_description body)
         (b_exercises body) (b_stake body) [] in
     let* savedChallenge := save challenge in
     let* community := Community_findById (b_communityId body) in
     match community with
     | None => ret (res 404 (JMessage "Community not found"))
     | Some community =>
         let memberIds := map m_userId (members community) in
         let* notifications := mapM (invite savedChallenge body) memberIds in
         let* savedNotifications := Notification_insertMany notifications in
         let* w := get in
         match io w, userSockets w with
         | Some _, Some sockets => forEach (push sockets) savedNotifications
         | _, _ => ret tt
         end ;;
         ret (res 200 (JChallenge savedChallenge))
     end)
    catch_message.

(** [challenge.participants.find(p => p.userId.toString() === userId)],
    with the position of the entry found: the handlers go on to write
    through the reference [find] returns. *)
Definition is_user (userId : string) (p : Participant) : bool :=
  String.eqb (toString (p_userId p)) userId.

Fixpoint find_participant (userId : string) (ps : list Participant)
    : option (nat * Participant) :=
  match ps with
  | [] => None
  | p :: ps' =>
      if is_user userId p then Some (0, p)
      else match find_participant userId ps' with
           | Some (i, q) => Some (S i, q)
           | None => None
           end
  end.

(** Reading [challenge.participants] of what [findById] returned: a
    [TypeError] when that is [null]. *)
Definition dereference (found : option Challenge) : M Challenge :=
  match found with
  | None => throw null_participants
  | Some c => ret c
  end.

Definition with_roster (ps : list Participant) (f : ChallengeFields) : ChallengeFields :=
  {| c_communityId := c_communityId f; c_name := c_name f;
     c_description := c_description f; c_exercises := c_exercises f;
     c_stake := c_stake f; c_participants := ps |}.

Definition with_participants (ps : list Participant) (c : Challenge) : Challenge :=
  {| c_id := c_id c; c_fields := with_roster ps (c_fields c) |}.

(** Modelled from the spec: the participant sub-schema, with its defaults,
    is in the missing [Model/communityChallenge]; the spec gives the entry
    appended by a join as all flags false. *)
Definition new_participant (userId : string) : Participant :=
  {| p_userId := userId; accepted := false; stakeSubmitted := false;
     completed := false; completedAt := None |}.

(** [router.post('/join/:challengeId')] *)
Definition join (challengeId userId : string) : M Response :=
  try_catch
    (let* challenge := CommunityChallenge_findById challengeId in
     match challenge with
     | None => ret (res 404 (JError "Challenge not found"))
     | Some challenge =>
         match find_participant userId (participants challenge) with
         | Some _ => ret (res 400 (JError "User already joined"))
         | None =>
             let challenge :=
               with_participants (participants challenge ++ [new_participant userId])
                 challenge in
             save challenge ;;
             ret (res 200 (JResult "Joined challenge successfully" challenge))
         end
     end)
    catch_error.

Definition set_accepted (p : Participant) : Participant :=
  {| p_userId := p_userId p; accepted := true; stakeSubmitted := true;
     completed := completed p; completedAt := completedAt p |}.

Definition set_completed (now : Date) (p : Participant) : Participant :=
  {| p_userId := p_userId p; accepted := accepted p; stakeSubmitted := stakeSubmitted p;
     completed := true; completedAt := Some now |}.

(** [router.post('/accept/:challengeId')].  The handler does not test what
    [findById] returned before it reads [participants]. *)
Definition accept (challengeId userId : string) : M Response :=
  try_catch
    (let* found := CommunityChallenge_findById challengeId in
     let* challenge := dereference found in
     match find_participant userId (participants challenge) with
     | None => ret (res 404 (JError "User not in participant list"))
     | Some (i, participant) =>
         let challenge :=
           with_participants (<[i := set_accepted participant]> (participants challenge))
             challenge in
         save challenge ;;
         ret (res 200 (JResult "Challenge accepted" challenge))
     end)
    catch_error.

(** [router.post('/complete/:challengeId')] *)
Definition complete (challengeId userId : string) : M Response :=
  try_catch
    (let* found := CommunityChallenge_findById challengeId in
     let* challenge := dereference found in
     match find_participant userId (participants challenge) with
     | None => ret (res 404 (JError "User not in participant list"))
     | Some (i, participant) =>
         let* now := new_Date in
         let challenge :=
           with_participants (<[i := set_completed now participant]> (participants challenge))
             challenge in
         save challenge ;;
         ret (res 200 (JResult "Challenge marked as completed" challenge))
     end)
    catch_error.

(** ** Vocabulary of the properties *)

(** The store never rejects a call. *)
Definition reliable (e : Env) : Prop := ∀ k, fault e k = None.

(** The events of a bulk insert and of the live dispatch that follows it. *)
Definition live_push (sockets : gmap string string) (n : Notification) : list Event :=
  match sockets !! toString (n_userId n) with
  | Some socketId =>
      if truthy socketId then [EvEmit socketId "new_notification" n] else []
  | None => []
  end.

Definition dispatch_events (w : World) (ns : list Notification) : list Event :=
  match io w, userSockets w with
  | Some _, Some sockets => ns ≫= live_push sockets
  | _, _ => []
  end.

(** The world after one more event. *)
Definition logged (e : Event) (w : World) : World := with_trace (trace w ++ [e]) w.

Definition stored (c : Challenge) (w : World) : World :=
  with_db (with_challenges (<[c_id c := c_fields c]> (challenges (db w))) (db w)) w.

Definition found_challenge (id : string) (w : World) : option Challenge :=
  (λ f, {| c_id := id; c_fields := f |}) <$> challenges (db w) !! id.

(** The world after a bulk insert that stored [ns], drawing [k] ids. *)
Definition inserted (k : nat) (ns : list Notification) (w : World) : World :=
  with_oids (oids w + k)
    (with_trace (trace w ++ map EvInsertNotification ns)
       (with_db (with_notifications (notifications (db w) ++ ns) (db w)) w)).

(** The challenge document [/create] builds in world [w]. *)
Definition built (body : CreateBody) (w : World) : Challenge :=
  {| c_id := oid (env w) (oids w);
     c_fields := {| c_communityId := b_communityId body; c_name := b_name body;
                    c_description := b_description body;
                    c_exercises := b_exercises body; c_stake := b_stake body;
                    c_participants := [] |} |}.

(** What a handler added: the events after those of [w], the notifications
    after those of [w]. *)
Definition new_trace (w w' : World) : list Event := drop (length (trace w)) (trace w').

Definition new_notifications (w w' : World) : list Notification :=
  drop (length (notifications (db w))) (notifications (db w')).

(** Store [d'] is store [d] with entry [i] of the roster of challenge [cid]
    replaced by [p'], and nothing else changed: not another entry, not
    another field of the challenge, not another document. *)
Definition updates_entry (cid : string) (i : nat) (p' : Participant) (d d' : Db) : Prop :=
  ∃ f f',
    challenges d !! cid = Some f ∧ challenges d' !! cid = Some f'
    ∧ c_participants f' !! i = Some p'
    ∧ length (c_participants f') = length (c_participants f)
    ∧ (∀ j, j ≠ i → c_participants f' !! j = c_participants f !! j)
    ∧ c_communityId f' = c_communityId f ∧ c_name f' = c_name f
    ∧ c_description f' = c_description f ∧ c_exercises f' = c_exercises f
    ∧ c_stake f' = c_stake f
    ∧ (∀ k, k ≠ cid → challenges d' !! k = challenges d !! k)
    ∧ communities d' = communities d
    ∧ notifications d' = notifications d.

Definition is_emit (e : Event) : bool :=
  match e with EvEmit _ _ _ => true | _ => false end.

(** The pushes of a trace that carry a record addressed to [u]. *)
Definition pushed_to (u : ObjectId) (e : Event) : bool :=
  match e with EvEmit _ _ n => String.eqb (n_userId n) u | _ => false end.

Definition pushes_for (u : ObjectId) (t : list Event) : list Event :=
  List.filter (pushed_to u) t.

(** ** The scenario of the specification

    Community [C1] with members [u1], [u2], [u3], a stake of 10, [u2]
    holding a live connection; and a challenge [ch1] that [u1] and [u2]
    have joined. *)
Module Scenario.

Definition env0 : Env :=
  {| fault := λ _, None;
     connects := λ _ registry, registry;
     clock := λ k, (1700000000000 + Z.of_nat k)%Z;
     oid := λ k, "id" +:+ pretty k |}.

Definition c1 : Community :=
  {| members := [ {| m_userId := "u1" |}; {| m_userId := "u2" |}; {| m_userId := "u3" |} ] |}.

Definition body0 : CreateBody :=
  {| b_communityId := "C1"; b_name := "Plank week"; b_description := "Two minutes a day";
     b_exercises := ["plank"]; b_stake := {| amount := 10; currency := "ETH" |} |}.

(** The same request, for a community that does not exist. *)
Definition body_nowhere : CreateBody :=
  {| b_communityId := "C9"; b_name := "Plank week"; b_description := "Two minutes a day";
     b_exercises := ["plank"]; b_stake := {| amount := 10; currency := "ETH" |} |}.

Definition sockets0 : gmap string string := {[ "u2" := "socket-2" ]}.

Definition w0 : World :=
  {| env := env0; db_calls := 0; ticks := 0; oids := 0;
     db := {| challenges := ∅; communities := {[ "C1" := c1 ]}; notifications := [] |};
     io := Some SocketIOServer; userSockets := Some sockets0; trace := [] |}.

(** The router before [initializeRouter]. *)
Definition w_unwired : World := with_sockets None None w0.

Definition f1 : ChallengeFields :=
  {| c_communityId := "C1"; c_name := "Plank week"; c_description := "Two minutes a day";
     c_exercises := ["plank"]; c_stake := {| amount := 10; currency := "ETH" |};
     c_participants := [new_participant "u1"; new_participant "u2"] |}.

Definition w1 : World :=
  with_db {| challenges := {[ "ch1" := f1 ]}; communities := {[ "C1" := c1 ]};
             notifications := [] |} w0.

(** [u2] disconnects while the bulk insert (the third store call) is
    awaited. *)
Definition env_leaving : Env :=
  {| fault := λ _, None;
     connects := λ k registry, if Nat.eqb k 2 then delete "u2" registry else registry;
     clock := clock env0;
     oid := oid env0 |}.

Definition w_leaving : World :=
  {| env := env_leaving; db_calls := 0; ticks := 0; oids := 0;
     db := db w0; io := io w0; userSockets := userSockets w0; trace := [] |}.

(** The record [/create] stores for [u2] in [w0]. *)
Definition n2 : Notification :=
  {| n_id := "id2"; n_doc := invite_doc (built body0 w0) body0 "u2" 1700000000001 |}.

End Scenario.

(** ** Listing the challenges of a community *)

Inductive ListJson :=
| LChallenges (challenges : list Challenge)
| LError (error : string).

Record ListResponse := { l_status : nat; l_json : ListJson }.

(** The documents of the challenge collection.  The order in which the
    store hands them out is not the handler's business; the order of this
    list is that of the map and means nothing. *)
Definition documents (w : World) : list Challenge :=
  (λ kv, {| c_id := kv.1; c_fields := kv.2 |}) <$> map_to_list (challenges (db w)).

Definition in_community (communityId : string) (c : Challenge) : bool :=
  String.eqb (c_communityId (c_fields c)) communityId.

(** [await CommunityChallenge.find({ communityId })] *)
Definition CommunityChallenge_find (communityId : string) : M (list Challenge) :=
  let* o := store_call in
  match o with
  | Some _ => throw store_failure
  | None => let* w := get in ret (List.filter (in_community communityId) (documents w))
  end.

(** [router.get('/community/:communityId')] *)
Definition get_community (communityId : string) : M ListResponse :=
  try_catch
    (let* challenges := CommunityChallenge_find communityId in
     ret {| l_status := 200; l_json := LChallenges challenges |})
    (λ err, ret {| l_status := 500; l_json := LError (message err) |}).

(** ** Vocabulary of the further properties *)

Definition is_insert (e : Event) : bool :=
  match e with EvInsertNotification _ => true | _ => false end.

(** The recipients of the pushes of a trace, in the order of the pushes. *)
Definition pushed_recipients (t : list Event) : list ObjectId :=
  t ≫= λ e, match e with EvEmit _ _ n => [n_userId n] | _ => [] end.

(** The member has a handle the dispatch accepts. *)
Definition reachable (sockets : gmap string string) (u : ObjectId) : bool :=
  match sockets !! toString u with Some h => truthy h | None => false end.

(** Events that are neither a bulk-insert write nor a push. *)
Definition quiet (t : list Event) : Prop :=
  Forall (λ e, is_emit e = false ∧ is_insert e = false) t.

(** What the store holds after a roster handler, given what it held: either
    what it held, the answer not being 200, or the one challenge of the
    route with its roster rewritten as [step] says, the answer being 200 with
    that very document. *)
Definition roster_outcome (cid : string) (message : string)
    (step : list Participant → list Participant → Prop)
    (w : World) (r : World * (Exn + Response)) : Prop :=
  ∃ resp t,
    r.2 = inr resp
    ∧ trace r.1 = trace w ++ t ∧ quiet t
    ∧ env r.1 = env w
    ∧ ((status resp ∈ [400; 404; 500] ∧ db r.1 = db w)
       ∨ ∃ f ps,
           challenges (db w) !! cid = Some f
           ∧ step (c_participants f) ps
           ∧ resp = res 200 (JResult message {| c_id := cid; c_fields := with_roster ps f |})
           ∧ db r.1 = with_challenges (<[cid := with_roster ps f]> (challenges (db w))) (db w)).

(** A store that rejects the call numbered [k] and no other. *)
Definition rejects_only (k : nat) : nat → option nat :=
  λ i, if Nat.eqb i k then Some 0 else None.

(** * The browser side

    Three components of the client carry logic of their own: the
    personal-details form ([Input.jsx]), the wallet button (its
    [truncateAddress]) and the challenge timer (its [calculateTimeLeft] and
    [formatDateTime]).  React state is passed explicitly; what a function
    does to the outside is returned as a list of effects. *)

(** ** Strings as JavaScript cuts and pads them *)

Fixpoint str_take (n : nat) (s : string) : string :=
  match n, s with
  | S n', String c s' => String c (str_take n' s')
  | _, _ => EmptyString
  end.

Fixpoint str_drop (n : nat) (s : string) : string :=
  match n, s with
  | S n', String _ s' => str_drop n' s'
  | _, _ => s
  end.

(** An index argument of [substring]: negative is 0, beyond the end is the
    length. *)
Definition clamp (len : nat) (i : Z) : nat := Z.to_nat (Z.min (Z.max i 0) (Z.of_nat len)).

(** [s.substring(start, stop)]: the arguments are clamped, and swapped when
    the first is the larger. *)
Definition substring (start stop : Z) (s : string) : string :=
  let a := clamp (String.length s) start in
  let b := clamp (String.length s) stop in
  str_take (Nat.max a b - Nat.min a b) (str_drop (Nat.min a b) s).

(** [s.substring(start)] *)
Definition substring_from (start : Z) (s : string) : string :=
  substring start (Z.of_nat (String.length s)) s.

Fixpoint repeat_char (n : nat) (c : Ascii.ascii) : string :=
  match n with
  | 0 => EmptyString
  | S n' => String c (repeat_char n' c)
  end.

(** The character [0]. *)
Definition zero : Ascii.ascii := Ascii.ascii_of_nat 48.

(** [s.padStart(targetLength, pad)] for a one-character [pad]. *)
Definition padStart (targetLength : nat) (pad : Ascii.ascii) (s : string) : string :=
  repeat_char (targetLength - String.length s) pad +:+ s.

(** ** The personal-details form *)
Module Input.

Record FormData := {
  height : string;
  weight : string;
  bmi : string;
  age : string;
  gender : string;
  goals : list string }.

Definition with_goals (gs : list string) (prev : FormData) : FormData :=
  {| height := height prev; weight := weight prev; bmi := bmi prev; age := age prev;
     gender := gender prev; goals := gs |}.

(** [validateForm]: the errors it hands to [setFormErrors], and its
    result. *)
Definition validateForm (formData : FormData) : gmap string string * bool :=
  let errors : gmap string string := ∅ in
  let errors :=
    if truthy (height formData) then errors
    else <["height" := "Height is required"]> errors in
  let errors :=
    if truthy (weight formData) then errors
    else <["weight" := "Weight is required"]> errors in
  let errors :=
    if truthy (age formData) then errors
    else <["age" := "Age is required"]> errors in
  let errors :=
    if truthy (gender formData) then errors
    else <["gender" := "Please select a gender"]> errors in
  let errors :=
    if Nat.eqb (length (goals formData)) 0
    then <["goals" := "Please select at least one goal"]> errors
    else errors in
  (errors, Nat.eqb (size errors) 0).

(** The values [isFormValid] can return: [&&] returns one of its operands. *)
Inductive Value :=
| VString (s : string)
| VBoolean (b : bool).

Definition to_boolean (v : Value) : bool :=
  match v with VString s => truthy s | VBoolean b => b end.

Definition and_then (a b : Value) : Value := if to_boolean a then b else a.

Definition isFormValid (formData : FormData) : Value :=
  and_then
    (and_then
       (and_then
          (and_then (VString (height formData)) (VString (weight formData)))
          (VString (age formData)))
       (VString (gender formData)))
    (VBoolean (Nat.ltb 0 (length (goals formData)))).

(** [disabled={!isFormValid() || isSubmitting || !email}] *)
Definition submit_disabled (formData : FormData) (isSubmitting : bool)
    (email : option string) : bool :=
  negb (to_boolean (isFormValid formData))
  || isSubmitting
  || negb (match email with Some e => truthy e | None => false end).

Definition includes (goalId : string) (gs : list string) : bool :=
  existsb (String.eqb goalId) gs.

(** The updater [toggleGoal] passes to [setFormData]. *)
Definition toggleGoal (goalId : string) (prev : FormData) : FormData :=
  if includes goalId (goals prev)
  then with_goals (List.filter (λ g, negb (String.eqb g goalId)) (goals prev)) prev
  else if Nat.ltb (length (goals prev)) 2
       then with_goals (goals prev ++ [goalId]) prev
       else prev.

(** A run of clicks on goals, first click first. *)
Definition clicks (goalIds : list string) (start : FormData) : FormData :=
  foldl (λ prev goalId, toggleGoal goalId prev) start goalIds.

Definition initial : FormData :=
  {| height := EmptyString; weight := EmptyString; bmi := EmptyString;
     age := EmptyString; gender := EmptyString; goals := [] |}.

End Input.

(** ** The wallet button *)
Module ConnectWallet.

(** [truncateAddress(address)]; [None] is [undefined] or [null]. *)
Definition truncateAddress (address : option string) : option string :=
  match address with
  | None => None
  | Some a =>
      if negb (truthy a) || String.eqb a "Connect Wallet" then Some a
      else Some (substring 0 6 a +:+ "..."
                 +:+ substring_from (Z.of_nat (String.length a) - 4) a)
  end.

End ConnectWallet.

(** ** The challenge timer *)
Module TimerActiveChallenge.

Record TimeLeft := { hours : string; minutes : string; seconds : string }.

Inductive TimerEffect :=
| SetTimeLeft (t : TimeLeft)
| ClearInterval
| DeleteActiveChallenge (challengeId : string).

(** [calculateTimeLeft], on the two instants in milliseconds.  The
    differences the timer sees are integers far below 2^53, on which the
    division and [Math.floor] of the source are exact. *)
Definition calculateTimeLeft (midnightSameDay now : Z) (challengeId : string)
    : list TimerEffect :=
  let remainingTime := (midnightSameDay - now)%Z in
  if (remainingTime <=? 0)%Z then
    [SetTimeLeft {| hours := "00"; minutes := "00"; seconds := "00" |};
     ClearInterval;
     DeleteActiveChallenge challengeId]
  else
    let h := (remainingTime / (1000 * 60 * 60))%Z in
    let m := (Z.rem remainingTime (1000 * 60 * 60) / (1000 * 60))%Z in
    let s := (Z.rem remainingTime (1000 * 60) / 1000)%Z in
    [SetTimeLeft {| hours := padStart 2 zero (pretty h);
                    minutes := padStart 2 zero (pretty m);
                    seconds := padStart 2 zero (pretty s) |}].

(** What [formatDateTime] reads of a [Date]: its local-time getters. *)
Record DateParts := {
  getDate : Z;
  getMonth : Z;
  getFullYear : Z;
  getHours : Z;
  getMinutes : Z;
  getSeconds : Z }.

Definition formatDateTime (date : DateParts) : string * string :=
  let day := padStart 2 zero (pretty (getDate date)) in
  let month := padStart 2 zero (pretty (getMonth date + 1)%Z) in
  let year := pretty (getFullYear date) in
  let formattedDate := day +:+ "/" +:+ month +:+ "/" +:+ year in
  let hours := padStart 2 zero (pretty (getHours date)) in
  let minutes := padStart 2 zero (pretty (getMinutes date)) in
  let seconds := padStart 2 zero (pretty (getSeconds date)) in
  let formattedTime := hours +:+ ":" +:+ minutes +:+ ":" +:+ seconds in
  (formattedDate, formattedTime).

(** The values the getters of a valid [Date] of a four-digit year take. *)
Definition in_range (d : DateParts) : Prop :=
  (1 ≤ getDate d ≤ 31 ∧ 0 ≤ getMonth d ≤ 11 ∧ 1000 ≤ getFullYear d ≤ 9999
   ∧ 0 ≤ getHours d ≤ 23 ∧ 0 ≤ getMinutes d ≤ 59 ∧ 0 ≤ getSeconds d ≤ 59)%Z.

End TimerActiveChallenge.

(** * Properties *)

(** ** Running the primitives *)

Lemma world_eq (w1 w2 : World) :
  env w1 = env w2 → db_calls w1 = db_calls w2 → ticks w1 = ticks w2 →
  oids w1 = oids w2 → db w1 = db w2 → io w1 = io w2 →
  userSockets w1 = userSockets w2 → trace w1 = trace w2 → w1 = w2.
Proof. destruct w1, w2; simpl; intros; subst; reflexivity. Qed.

Lemma bind_ok {A B} (m : M A) (k : A → M B) w w' a :
  m w = (w', inr a) → bind m k w = k a w'.
Proof. unfold bind; intros ->; reflexivity. Qed.

Lemma bind_throw {A B} (m : M A) (k : A → M B) w w' e :
  m w = (w', inl e) → bind m k w = (w', inl e).
Proof. unfold bind; intros ->; reflexivity. Qed.

Lemma mapM_invite saved body ids w :
  ∃ docs,
    mapM (invite saved body) ids w = (with_ticks (ticks w + length ids) w, inr docs)
    ∧ Forall2 (λ u d, ∃ t, d = invite_doc saved body u t) ids docs.
Proof.
  revert w; induction ids as [|u ids IH]; intros w.
  - exists []; split; [|constructor].
    simpl; unfold ret; f_equal.
    apply world_eq; simpl; auto with lia.
  - destruct (IH (with_ticks (S (ticks w)) w)) as (docs & Hrun & Hdocs).
    exists (invite_doc saved body u (clock (env w) (ticks w)) :: docs); split.
    + simpl. unfold bind at 1. unfold invite at 1, bind at 1, new_Date at 1, ret at 1.
      unfold bind at 1. rewrite Hrun. unfold ret; f_equal.
      apply world_eq; simpl; auto with lia.
    + constructor; eauto.
Qed.

Lemma mapM_insertOne docs w :
  ∃ ns,
    mapM insertOne docs w =
      (with_oids (oids w + length docs)
         (with_trace (trace w ++ map EvInsertNotification ns)
            (with_db (with_notifications (notifications (db w) ++ ns) (db w)) w)),
       inr ns)
    ∧ map n_doc ns = docs.
Proof.
  revert w; induction docs as [|d docs IH]; intros w.
  - exists []; split; [|reflexivity].
    simpl; unfold ret; f_equal.
    apply world_eq; simpl; rewrite ?app_nil_r; auto with lia.
    destruct (db w); reflexivity.
  - set (n := {| n_id := oid (env w) (oids w); n_doc := d |}).
    set (w1 := with_trace (trace w ++ [EvInsertNotification n])
                 (with_db (with_notifications (notifications (db w) ++ [n]) (db w))
                    (with_oids (S (oids w)) w))).
    destruct (IH w1) as (ns & Hrun & Hns).
    exists (n :: ns); split; [|simpl; by rewrite Hns].
    simpl. unfold bind at 1.
    replace (insertOne d w) with (w1, @inr Exn _ n) by reflexivity.
    unfold bind at 1. rewrite Hrun. unfold ret; f_equal.
    apply world_eq; simpl; rewrite <- ?app_assoc; auto with lia.
Qed.

Lemma forEach_push sockets ns w :
  forEach (push sockets) ns w = (with_trace (trace w ++ (ns ≫= live_push sockets)) w, inr tt).
Proof.
  revert w; induction ns as [|n ns IH]; intros w.
  - simpl; unfold ret; f_equal. apply world_eq; simpl; by rewrite ?app_nil_r.
  - simpl. unfold bind at 1.
    assert (push sockets n w = (with_trace (trace w ++ live_push sockets n) w, inr tt)) as ->.
    { unfold push, live_push. destruct (sockets !! _) as [s|]; [destruct (truthy s)|];
        try reflexivity; unfold ret; f_equal; apply world_eq; simpl; by rewrite ?app_nil_r. }
    rewrite IH; f_equal. apply world_eq; simpl; by rewrite <- ?app_assoc.
Qed.

Lemma findChallenge_ok id w :
  fault (env w) (db_calls w) = None →
  CommunityChallenge_findById id w =
    (called (logged (EvFindChallenge id) w), inr (found_challenge id w)).
Proof. intros H. unfold CommunityChallenge_findById, bind, log, modify, store_call; simpl. by rewrite H. Qed.

Lemma findChallenge_fail id w j :
  fault (env w) (db_calls w) = Some j →
  CommunityChallenge_findById id w =
    (called (logged (EvFindChallenge id) w), inl store_failure).
Proof. intros H. unfold CommunityChallenge_findById, bind, log, modify, store_call; simpl. by rewrite H. Qed.

Lemma findCommunity_ok id w :
  fault (env w) (db_calls w) = None →
  Community_findById id w =
    (called (logged (EvFindCommunity id) w), inr (communities (db w) !! id)).
Proof. intros H. unfold Community_findById, bind, log, modify, store_call; simpl. by rewrite H. Qed.

Lemma findCommunity_fail id w j :
  fault (env w) (db_calls w) = Some j →
  Community_findById id w = (called (logged (EvFindCommunity id) w), inl store_failure).
Proof. intros H. unfold Community_findById, bind, log, modify, store_call; simpl. by rewrite H. Qed.

Lemma save_ok c w :
  fault (env w) (db_calls w) = None →
  save c w = (logged (EvSaveChallenge c) (stored c (called w)), inr c).
Proof. intros H. unfold save, bind, log, modify, store_call; simpl. by rewrite H. Qed.

Lemma save_fail c w j :
  fault (env w) (db_calls w) = Some j →
  save c w = (called w, inl store_failure).
Proof. intros H. unfold save, bind, log, modify, store_call; simpl. by rewrite H. Qed.

Lemma insertMany_ok docs w :
  fault (env w) (db_calls w) = None →
  ∃ ns, Notification_insertMany docs w = (inserted (length docs) ns (called w), inr ns)
        ∧ map n_doc ns = docs.
Proof.
  intros H. destruct (mapM_insertOne docs (called w)) as (ns & Hrun & Hns).
  exists ns; split; [|done].
  unfold Notification_insertMany, bind, store_call; simpl. rewrite H. exact Hrun.
Qed.

Lemma insertMany_fail docs w j :
  fault (env w) (db_calls w) = Some j →
  ∃ ns, Notification_insertMany docs w =
          (inserted (length (take j docs)) ns (called w), inl store_failure)
        ∧ map n_doc ns = take j docs.
Proof.
  intros H. destruct (mapM_insertOne (take j docs) (called w)) as (ns & Hrun & Hns).
  exists ns; split; [|done].
  unfold Notification_insertMany, bind, store_call; simpl. rewrite H.
  fold (called w). by rewrite Hrun.
Qed.

Lemma new_communityChallenge_run body w :
  new_communityChallenge (b_communityId body) (b_name body) (b_description body)
    (b_exercises body) (b_stake body) [] w
  = (with_oids (S (oids w)) w, inr (built body w)).
Proof. reflexivity. Qed.

(** The guarded [forEach] of [/create], run in the world [w] the bulk
    insert left. *)
Lemma run_dispatch ns w :
  ∃ w', match io w, userSockets w with
        | Some _, Some sockets => forEach (push sockets) ns
        | _, _ => ret tt
        end w = (w', inr tt)
        ∧ w' = with_trace (trace w ++ dispatch_events w ns) w.
Proof.
  unfold dispatch_events.
  destruct (io w); [destruct (userSockets w) as [sockets|]|].
  - rewrite forEach_push. eauto.
  - eexists; split; [reflexivity|]. apply world_eq; simpl; by rewrite ?app_nil_r.
  - eexists; split; [reflexivity|]. apply world_eq; simpl; by rewrite ?app_nil_r.
Qed.

(** [/create], when the store is reliable and the community exists. *)
Lemma create_ok body w comm :
  reliable (env w) →
  communities (db w) !! b_communityId body = Some comm →
  ∃ w' ns,
    create body w = (w', inr (res 200 (JChallenge (built body w))))
    ∧ Forall2 (λ u n, ∃ t, n_doc n = invite_doc (built body w) body u t)
        (map m_userId (members comm)) ns
    ∧ db w' = with_notifications (notifications (db w) ++ ns)
                (with_challenges
                   (<[c_id (built body w) := c_fields (built body w)]> (challenges (db w)))
                   (db w))
    ∧ trace w' = trace w
                 ++ [EvSaveChallenge (built body w); EvFindCommunity (b_communityId body)]
                 ++ map EvInsertNotification ns
                 ++ dispatch_events w' ns
    ∧ env w' = env w ∧ io w' = io w
    ∧ (userSockets w = None → userSockets w' = None).
Proof.
  intros Hrel Hcomm.
  set (ch := built body w).
  set (w1 := logged (EvSaveChallenge ch) (stored ch (called (with_oids (S (oids w)) w)))).
  set (w2 := called (logged (EvFindCommunity (b_communityId body)) w1)).
  destruct (mapM_invite ch body (map m_userId (members comm)) w2) as (docs & Hdocs & Hinv).
  set (w3 := with_ticks _ w2) in Hdocs.
  destruct (insertMany_ok docs w3) as (ns & Hins & Hns); [apply Hrel|].
  set (w4 := inserted _ ns _) in Hins.
  assert (Hns2 : Forall2 (λ u n, ∃ t, n_doc n = invite_doc ch body u t)
                   (map m_userId (members comm)) ns).
  { subst docs. apply Forall2_fmap_r in Hinv. exact Hinv. }
  destruct (run_dispatch ns w4) as (w5 & Hpush & Hw5).
  exists w5, ns. split; [|split; [exact Hns2|]].
  - unfold create, try_catch.
    erewrite bind_ok by apply new_communityChallenge_run.
    erewrite bind_ok by (apply save_ok; apply Hrel).
    erewrite bind_ok by (apply findCommunity_ok; apply Hrel).
    simpl. rewrite Hcomm.
    erewrite bind_ok by exact Hdocs.
    erewrite bind_ok by exact Hins.
    erewrite bind_ok by reflexivity.
    erewrite bind_ok by exact Hpush.
    reflexivity.
  - subst w5; simpl. split; [reflexivity|].
    split; [by rewrite <- !app_assoc|]. split; [reflexivity|]. split; [reflexivity|].
    by intros ->.
Qed.

Lemma new_trace_app w w' t : trace w' = trace w ++ t → new_trace w w' = t.
Proof. unfold new_trace; intros ->. by rewrite drop_app_length. Qed.

Lemma new_notifications_app w w' ns :
  notifications (db w') = notifications (db w) ++ ns → new_notifications w w' = ns.
Proof. unfold new_notifications; intros ->. by rewrite drop_app_length. Qed.

Lemma invites_recipients (f : ObjectId → Date → NotificationDoc) ids ns :
  (∀ u t, d_userId (f u t) = u) →
  Forall2 (λ u n, ∃ t, n_doc n = f u t) ids ns → map n_userId ns = ids.
Proof.
  intros Hf; induction 1 as [|u n ids ns (t & Ht) _ IH]; [done|].
  simpl; f_equal; [|exact IH]. unfold n_userId; by rewrite Ht, Hf.
Qed.

Lemma pushes_for_inserts u ns : pushes_for u (map EvInsertNotification ns) = [].
Proof. induction ns; simpl; auto. Qed.

Lemma pushes_for_app u t1 t2 : pushes_for u (t1 ++ t2) = pushes_for u t1 ++ pushes_for u t2.
Proof. apply List.filter_app. Qed.

Lemma pushes_for_own sockets n : pushes_for (n_userId n) (live_push sockets n) = live_push sockets n.
Proof.
  unfold live_push. destruct (sockets !! _) as [h|]; [destruct (truthy h)|]; simpl; auto.
  by rewrite String.eqb_refl.
Qed.

Lemma pushes_for_other sockets u n : n_userId n ≠ u → pushes_for u (live_push sockets n) = [].
Proof.
  intros Hne. unfold live_push. destruct (sockets !! _) as [h|]; [destruct (truthy h)|]; simpl; auto.
  apply String.eqb_neq in Hne. by rewrite Hne.
Qed.

Lemma pushes_for_absent sockets u ns :
  u ∉ map n_userId ns → pushes_for u (ns ≫= live_push sockets) = [].
Proof.
  induction ns as [|n ns IH]; [done|]; rewrite fmap_cons, bind_cons; intros Hu.
  apply not_elem_of_cons in Hu as [Hne Hu].
  rewrite pushes_for_app, pushes_for_other, IH; auto.
Qed.

Lemma pushes_for_member sockets n ns :
  NoDup (map n_userId ns) → n ∈ ns →
  pushes_for (n_userId n) (ns ≫= live_push sockets) = live_push sockets n.
Proof.
  induction ns as [|m ns IH]; intros Hnd Hin; [by apply elem_of_nil in Hin|].
  rewrite fmap_cons in Hnd. rewrite bind_cons.
  apply NoDup_cons in Hnd as [Hm Hnd]. rewrite pushes_for_app.
  apply elem_of_cons in Hin as [->|Hin].
  - by rewrite pushes_for_own, pushes_for_absent, app_nil_r.
  - rewrite pushes_for_other, IH; auto.
    intros Heq. apply Hm. rewrite Heq. apply list_elem_of_fmap. eauto.
Qed.

Lemma no_emit_inserts ns : List.filter is_emit (map EvInsertNotification ns) = [].
Proof. induction ns; simpl; auto. Qed.

(** ** Creating a challenge: the invites *)

(** C1.  A create request on a community with N members, served by a
    reliable store, persists exactly N new notifications, one per member in
    member order (the creator is not left out: nothing in the handler knows
    who the creator is).  The recipients are the member identities, hence
    distinct when those are; every record has type [challenge_invite],
    [read] false, and the same title, description and payload (challenge id,
    community id, stake amount, challenge name and description). *)
Theorem create_persists_one_invite_per_member body w comm :
  reliable (env w) →
  communities (db w) !! b_communityId body = Some comm →
  let w' := (create body w).1 in
  let ns := new_notifications w w' in
  notifications (db w') = notifications (db w) ++ ns
  ∧ length ns = length (members comm)
  ∧ map n_userId ns = map m_userId (members comm)
  ∧ (NoDup (map m_userId (members comm)) → NoDup (map n_userId ns))
  ∧ Forall (λ n, d_type (n_doc n) = "challenge_invite"
                 ∧ d_read (n_doc n) = false
                 ∧ d_title (n_doc n) = invite_title (b_name body)
                 ∧ d_description (n_doc n) = invite_description (b_name body)
                 ∧ d_data (n_doc n) =
                     {| challengeId := c_id (built body w);
                        communityId := b_communityId body;
                        stakeAmount := amount (b_stake body);
                        challengeName := b_name body;
                        challengeDescription := b_description body |}) ns.
Proof.
  intros Hrel Hcomm.
  destruct (create_ok body w comm Hrel Hcomm)
    as (w1 & ns & Hrun & Hinv & Hdb & _).
  rewrite Hrun; simpl.
  assert (Hns : notifications (db w1) = notifications (db w) ++ ns) by (by rewrite Hdb).
  rewrite (new_notifications_app _ _ _ Hns).
  assert (Hrec : map n_userId ns = map m_userId (members comm)).
  { apply (invites_recipients (invite_doc (built body w) body)); auto. }
  split; [exact Hns|]. split.
  { apply Forall2_length in Hinv. rewrite length_map in Hinv. by rewrite Hinv. }
  split; [exact Hrec|]. split; [by rewrite Hrec|].
  clear -Hinv. induction Hinv as [|u n ids ns (t & Ht) _ IH]; constructor; auto.
  rewrite Ht; simpl; auto.
Qed.

(** C2.  Take a request that reaches its dispatch: the router is wired to
    a socket server, the store is reliable, the community exists and its
    member identities are distinct.  Let [sockets] be the registry at
    dispatch time, that is, as the connection callbacks left it when the
    bulk insert returned.  Every member then has a newly persisted record.
    When [sockets] holds a (non-empty) handle for the member, the pushes of
    this request that carry a record for that member are exactly one
    [new_notification] to that handle, carrying that persisted record with
    the id the store gave it.  When [sockets] holds nothing for the member
    there is no such push, and the record is persisted all the same. *)
Theorem dispatch_pushes_once_to_registered body w comm sockets :
  reliable (env w) →
  communities (db w) !! b_communityId body = Some comm →
  NoDup (map m_userId (members comm)) →
  is_Some (io w) →
  userSockets (create body w).1 = Some sockets →
  let w' := (create body w).1 in
  ∀ u, u ∈ map m_userId (members comm) →
    ∃ n, n ∈ new_notifications w w'
         ∧ n ∈ notifications (db w')
         ∧ n_userId n = u
         ∧ (∀ h, sockets !! toString u = Some h → truthy h = true →
              pushes_for u (new_trace w w') = [EvEmit h "new_notification" n])
         ∧ (sockets !! toString u = None → pushes_for u (new_trace w w') = []).
Proof.
  intros Hrel Hcomm Hnd [s Hio] Hus.
  destruct (create_ok body w comm Hrel Hcomm)
    as (w1 & ns & Hrun & Hinv & Hdb & Htr & _ & Hio1 & _).
  rewrite Hrun in Hus |- *; simpl in Hus |- *. intros u Hu.
  assert (Hns : notifications (db w1) = notifications (db w) ++ ns) by (by rewrite Hdb).
  rewrite (new_notifications_app _ _ _ Hns), (new_trace_app _ _ _ Htr).
  assert (Hrec : map n_userId ns = map m_userId (members comm)).
  { apply (invites_recipients (invite_doc (built body w) body)); auto. }
  rewrite <- Hrec in Hu, Hnd.
  apply list_elem_of_fmap in Hu as (n & -> & Hn).
  exists n. split; [exact Hn|]. split; [rewrite Hns; apply elem_of_app; auto|].
  split; [reflexivity|].
  assert (Hpush : pushes_for (n_userId n)
                    ([EvSaveChallenge (built body w); EvFindCommunity (b_communityId body)]
                     ++ map EvInsertNotification ns ++ dispatch_events w1 ns)
                  = live_push sockets n).
  { unfold dispatch_events. rewrite Hio1, Hio, Hus.
    rewrite !pushes_for_app, pushes_for_inserts, pushes_for_member by auto. reflexivity. }
  rewrite Hpush. unfold live_push. split.
  - intros h Hh Ht. by rewrite Hh, Ht.
  - intros Hh. by rewrite Hh.
Qed.

(** C10.  A router that was never given a socket server or a registry
    still serves a create request: with a reliable store and an existing
    community the challenge and all N notifications are persisted, the
    answer is 200 with the challenge, and nothing is pushed. *)
Theorem create_without_sockets_persists_and_stays_silent body w comm :
  io w = None ∨ userSockets w = None →
  reliable (env w) →
  communities (db w) !! b_communityId body = Some comm →
  let w' := (create body w).1 in
  (create body w).2 = inr (res 200 (JChallenge (built body w)))
  ∧ challenges (db w') !! c_id (built body w) = Some (c_fields (built body w))
  ∧ length (new_notifications w w') = length (members comm)
  ∧ map n_userId (new_notifications w w') = map m_userId (members comm)
  ∧ notifications (db w') = notifications (db w) ++ new_notifications w w'
  ∧ List.filter is_emit (new_trace w w') = [].
Proof.
  intros Hoff Hrel Hcomm.
  destruct (create_ok body w comm Hrel Hcomm)
    as (w1 & ns & Hrun & Hinv & Hdb & Htr & _ & Hio1 & Hus1).
  rewrite Hrun; simpl.
  assert (Hns : notifications (db w1) = notifications (db w) ++ ns) by (by rewrite Hdb).
  rewrite (new_notifications_app _ _ _ Hns), (new_trace_app _ _ _ Htr).
  assert (Hrec : map n_userId ns = map m_userId (members comm)).
  { apply (invites_recipients (invite_doc (built body w) body)); auto. }
  split; [reflexivity|]. split; [rewrite Hdb; simpl; apply lookup_insert_eq|].
  split.
  { apply Forall2_length in Hinv. rewrite length_map in Hinv. by rewrite Hinv. }
  split; [exact Hrec|]. split; [exact Hns|].
  assert (dispatch_events w1 ns = []) as ->.
  { unfold dispatch_events. rewrite Hio1.
    destruct Hoff as [->|Hoff]; [done|]. rewrite (Hus1 Hoff). by destruct (io w). }
  rewrite app_nil_r, List.filter_app, no_emit_inserts. reflexivity.
Qed.

(** C8.  [/create] builds the challenge with an empty roster and saves it
    before it looks the community up: the save is the first event of the
    request, the lookup the second.  When the store answers both calls and
    the community does not exist, the answer is 404 and the challenge saved
    a moment before stays stored: no notification is written, nothing is
    pushed, nothing is undone. *)
Theorem create_without_community_leaves_challenge body w :
  reliable (env w) →
  communities (db w) !! b_communityId body = None →
  let w' := (create body w).1 in
  (create body w).2 = inr (res 404 (JMessage "Community not found"))
  ∧ participants (built body w) = []
  ∧ challenges (db w') !! c_id (built body w) = Some (c_fields (built body w))
  ∧ notifications (db w') = notifications (db w)
  ∧ new_trace w w' =
      [EvSaveChallenge (built body w); EvFindCommunity (b_communityId body)].
Proof.
  intros Hrel Hcomm.
  assert (Hrun : ∃ w1, create body w = (w1, inr (res 404 (JMessage "Community not found")))
            ∧ db w1 = with_challenges
                        (<[c_id (built body w) := c_fields (built body w)]> (challenges (db w)))
                        (db w)
            ∧ trace w1 = trace w ++ [EvSaveChallenge (built body w);
                                     EvFindCommunity (b_communityId body)]).
  { eexists; split.
    - unfold create, try_catch.
      erewrite bind_ok by apply new_communityChallenge_run.
      erewrite bind_ok by (apply save_ok; apply Hrel).
      erewrite bind_ok by (apply findCommunity_ok; apply Hrel).
      simpl. rewrite Hcomm. reflexivity.
    - simpl. split; [reflexivity|]. by rewrite <- app_assoc. }
  destruct Hrun as (w1 & Hrun & Hdb & Htr).
  rewrite Hrun; simpl. rewrite (new_trace_app _ _ _ Htr), Hdb; simpl.
  repeat split. apply lookup_insert_eq.
Qed.

(** ** Persist, then push *)

Lemma live_push_emits sockets n :
  Forall (λ e, ∃ s, e = EvEmit s "new_notification" n) (live_push sockets n).
Proof.
  unfold live_push. destruct (sockets !! _) as [h|]; [destruct (truthy h)|]; eauto.
Qed.

Lemma dispatch_emits w ns :
  Forall (λ e, ∃ s n, e = EvEmit s "new_notification" n ∧ n ∈ ns) (dispatch_events w ns).
Proof.
  unfold dispatch_events. destruct (io w); [destruct (userSockets w) as [sockets|]|]; auto.
  apply Forall_forall. intros e He.
  apply list_elem_of_bind in He as (n & He & Hn).
  pose proof (live_push_emits sockets n) as Hall.
  rewrite Forall_forall in Hall. destruct (Hall e He) as (h & ->). eauto.
Qed.

(** The events and records [/create] adds, whatever the store does: store
    calls, then the inserts of the records that got stored, then pushes, each
    of a record among those. *)
Lemma create_trace_shape body w :
  ∃ pre ns pushed,
    trace (create body w).1 = trace w ++ pre ++ map EvInsertNotification ns ++ pushed
    ∧ notifications (db (create body w).1) = notifications (db w) ++ ns
    ∧ Forall (λ e, is_emit e = false) pre
    ∧ Forall (λ e, ∃ s n, e = EvEmit s "new_notification" n ∧ n ∈ ns) pushed.
Proof.
  set (ch := built body w).
  set (w0 := with_oids (S (oids w)) w).
  destruct (fault (env w) (db_calls w)) as [j0|] eqn:F0.
  { exists [], [], []. unfold create, try_catch.
    erewrite bind_ok by apply new_communityChallenge_run.
    erewrite bind_throw by (eapply save_fail; exact F0).
    simpl. rewrite !app_nil_r. auto. }
  set (w1 := logged (EvSaveChallenge ch) (stored ch (called w0))).
  set (pre := [EvSaveChallenge ch; EvFindCommunity (b_communityId body)]).
  assert (Hpre : Forall (λ e, is_emit e = false) pre) by (repeat constructor).
  destruct (fault (env w) (S (db_calls w))) as [j1|] eqn:F1.
  { exists pre, [], []. unfold create, try_catch.
    erewrite bind_ok by apply new_communityChallenge_run.
    erewrite bind_ok by (apply save_ok; exact F0).
    erewrite bind_throw by (eapply findCommunity_fail; exact F1).
    simpl. rewrite !app_nil_r, <- app_assoc. auto. }
  set (w2 := called (logged (EvFindCommunity (b_communityId body)) w1)).
  destruct (communities (db w) !! b_communityId body) as [comm|] eqn:Hcomm; cycle 1.
  { exists pre, [], []. unfold create, try_catch.
    erewrite bind_ok by apply new_communityChallenge_run.
    erewrite bind_ok by (apply save_ok; exact F0).
    erewrite bind_ok by (apply findCommunity_ok; exact F1).
    simpl. rewrite Hcomm. simpl. rewrite !app_nil_r, <- app_assoc. auto. }
  destruct (mapM_invite ch body (map m_userId (members comm)) w2) as (docs & Hdocs & _).
  set (w3 := with_ticks _ w2) in Hdocs.
  destruct (fault (env w) (S (S (db_calls w)))) as [j2|] eqn:F2.
  { destruct (insertMany_fail docs w3 j2 F2) as (ns & Hins & _).
    exists pre, ns, []. unfold create, try_catch.
    erewrite bind_ok by apply new_communityChallenge_run.
    erewrite bind_ok by (apply save_ok; exact F0).
    erewrite bind_ok by (apply findCommunity_ok; exact F1).
    simpl. rewrite Hcomm.
    erewrite bind_ok by exact Hdocs.
    erewrite bind_throw by exact Hins.
    simpl. rewrite !app_nil_r, <- !app_assoc. auto. }
  destruct (insertMany_ok docs w3 F2) as (ns & Hins & _).
  set (w4 := inserted _ ns _) in Hins.
  exists pre, ns, (dispatch_events w4 ns).
  destruct (run_dispatch ns w4) as (w5 & Hpush & ->).
  unfold create, try_catch.
  erewrite bind_ok by apply new_communityChallenge_run.
  erewrite bind_ok by (apply save_ok; exact F0).
  erewrite bind_ok by (apply findCommunity_ok; exact F1).
  simpl. rewrite Hcomm.
  erewrite bind_ok by exact Hdocs.
  erewrite bind_ok by exact Hins.
  erewrite bind_ok by reflexivity.
  erewrite bind_ok by exact Hpush.
  simpl. rewrite <- !app_assoc. split; [reflexivity|].
  split; [reflexivity|]. split; [exact Hpre|apply dispatch_emits].
Qed.

(** C3.  Whatever the store does, a push of [/create] carries a record
    that the bulk insert wrote earlier in the same request, and that record
    is in the notification collection when the handler is done.  And with a
    reliable store every member of the community has a persisted record,
    whether or not anything is registered for the member: nothing about the
    registry or the socket server is assumed. *)
Theorem push_only_after_persist body w :
  let w' := (create body w).1 in
  (∀ j s ev n,
      new_trace w w' !! j = Some (EvEmit s ev n) →
      n ∈ notifications (db w')
      ∧ ∃ i, i < j ∧ new_trace w w' !! i = Some (EvInsertNotification n))
  ∧ (∀ comm u,
      reliable (env w) →
      communities (db w) !! b_communityId body = Some comm →
      u ∈ map m_userId (members comm) →
      ∃ n, n ∈ notifications (db w') ∧ n_userId n = u).
Proof.
  simpl; split.
  - destruct (create_trace_shape body w) as (pre & ns & pushed & Htr & Hns & Hpre & Hpushed).
    rewrite (new_trace_app _ _ _ Htr), Hns. intros j s ev n Hj.
    assert (Hin : n ∈ ns ∧ (length pre + length ns ≤ j)%nat).
    { destruct (decide (j < length pre)) as [Hlt|Hge].
      { rewrite lookup_app_l in Hj by done.
        rewrite Forall_forall in Hpre.
        apply list_elem_of_lookup_2, Hpre in Hj. discriminate. }
      rewrite lookup_app_r in Hj by lia.
      destruct (decide (j - length pre < length ns)) as [Hlt|Hge'].
      { rewrite lookup_app_l in Hj by (by rewrite length_map).
        rewrite list_lookup_fmap in Hj.
        destruct (ns !! _); discriminate. }
      rewrite lookup_app_r in Hj by (rewrite length_map; lia).
      rewrite Forall_forall in Hpushed.
      apply list_elem_of_lookup_2, Hpushed in Hj as (s' & n' & Heq & Hn').
      inversion Heq; subst. split; [done|lia]. }
    destruct Hin as [Hin Hle]. split; [apply elem_of_app; auto|].
    apply list_elem_of_lookup in Hin as (k & Hk).
    exists (length pre + k)%nat. split; [apply lookup_lt_Some in Hk; lia|].
    rewrite lookup_app_r by lia.
    replace (length pre + k - length pre)%nat with k by lia.
    rewrite lookup_app_l by (rewrite length_map; by apply lookup_lt_Some in Hk).
    by rewrite list_lookup_fmap, Hk.
  - intros comm u Hrel Hcomm Hu.
    destruct (create_ok body w comm Hrel Hcomm) as (w1 & ns & Hrun & Hinv & Hdb & _).
    rewrite Hrun; simpl.
    assert (Hrec : map n_userId ns = map m_userId (members comm)).
    { apply (invites_recipients (invite_doc (built body w) body)); auto. }
    rewrite <- Hrec in Hu. apply list_elem_of_fmap in Hu as (n & -> & Hn).
    exists n. split; [|done]. rewrite Hdb; simpl. apply elem_of_app; auto.
Qed.

(** ** The roster *)

Lemma is_user_spec u p : is_user u p = true ↔ toString (p_userId p) = u.
Proof. unfold is_user. apply String.eqb_eq. Qed.

Lemma find_participant_Some u ps i p :
  find_participant u ps = Some (i, p) →
  ps !! i = Some p ∧ toString (p_userId p) = u
  ∧ ∀ k q, k < i → ps !! k = Some q → toString (p_userId q) ≠ u.
Proof.
  revert i; induction ps as [|q ps IH]; simpl; intros i H; [discriminate|].
  destruct (is_user u q) eqn:Hq.
  - inversion H; subst. split; [done|]. split; [by apply is_user_spec|]. intros; lia.
  - destruct (find_participant u ps) as [[i' p']|]; [|discriminate].
    inversion H; subst. destruct (IH i' eq_refl) as (Hl & Hu & Hfirst).
    split; [done|]. split; [done|]. intros [|k] q' Hk Hq'; simpl in Hq'.
    + inversion Hq'; subst. intros Heq. apply is_user_spec in Heq. congruence.
    + apply (Hfirst k); [lia|done].
Qed.

Lemma find_participant_None u ps :
  find_participant u ps = None ↔ ∀ p, p ∈ ps → toString (p_userId p) ≠ u.
Proof.
  induction ps as [|q ps IH]; simpl.
  - split; [intros _ p Hp; by apply elem_of_nil in Hp|done].
  - destruct (is_user u q) eqn:Hq.
    + split; [discriminate|]. intros H. apply is_user_spec in Hq.
      destruct (H q); [left|done].
    + destruct (find_participant u ps) as [[i p]|].
      * split; [discriminate|]. intros H.
        assert (Some (i, p) = None) as Habs; [|discriminate Habs].
        apply IH. intros p' Hp'. apply H. by right.
      * split; [|done]. intros _ p' Hp'. apply elem_of_cons in Hp' as [->|Hp'].
        -- intros Heq. apply is_user_spec in Heq. congruence.
        -- by apply IH.
Qed.

Lemma find_participant_present u ps p :
  p ∈ ps → toString (p_userId p) = u → ∃ i q, find_participant u ps = Some (i, q).
Proof.
  intros Hp Hu. destruct (find_participant u ps) as [[i q]|] eqn:H; [eauto|].
  exfalso. eapply find_participant_None; eauto.
Qed.

(** Writing through the entry [find] returned, without touching its
    [userId], leaves it the entry [find] returns. *)
Lemma find_participant_insert u ps i p p' :
  find_participant u ps = Some (i, p) → p_userId p' = p_userId p →
  find_participant u (<[i := p']> ps) = Some (i, p').
Proof.
  revert i; induction ps as [|q ps IH]; simpl; intros i H Hid; [discriminate|].
  destruct (is_user u q) eqn:Hq.
  - inversion H; subst; simpl. unfold is_user in *. by rewrite Hid, Hq.
  - destruct (find_participant u ps) as [[i' q']|] eqn:Hf; [|discriminate].
    inversion H; subst; simpl. rewrite Hq. by rewrite (IH i' eq_refl Hid).
Qed.

(** Under the roster invariant (one entry per user identity) the entry
    [find] returns is the entry of that user. *)
Lemma find_participant_unique u ps i p :
  NoDup (map p_userId ps) → ps !! i = Some p → toString (p_userId p) = u →
  find_participant u ps = Some (i, p).
Proof.
  intros Hnd Hi Hu.
  destruct (find_participant_present u ps p) as (k & q & Hf); [by eapply list_elem_of_lookup_2|done|].
  destruct (find_participant_Some _ _ _ _ Hf) as (Hk & Hq & _).
  assert (k = i) as ->.
  { eapply NoDup_lookup; [exact Hnd| |]; rewrite list_lookup_fmap.
    - by rewrite Hk.
    - rewrite Hi; simpl. unfold toString in *. congruence. }
  congruence.
Qed.

(** ** Running join, accept and complete *)

Lemma found_challenge_Some id w f :
  challenges (db w) !! id = Some f →
  found_challenge id w = Some {| c_id := id; c_fields := f |}.
Proof. unfold found_challenge; by intros ->. Qed.

Lemma found_challenge_None id w :
  challenges (db w) !! id = None → found_challenge id w = None.
Proof. unfold found_challenge; by intros ->. Qed.

Lemma join_unknown_challenge cid u w :
  fault (env w) (db_calls w) = None → challenges (db w) !! cid = None →
  join cid u w = (called (logged (EvFindChallenge cid) w),
                  inr (res 404 (JError "Challenge not found"))).
Proof.
  intros F H. unfold join, try_catch.
  erewrite bind_ok by (by apply findChallenge_ok).
  by rewrite found_challenge_None.
Qed.

Lemma accept_unknown_challenge cid u w :
  fault (env w) (db_calls w) = None → challenges (db w) !! cid = None →
  accept cid u w = (called (logged (EvFindChallenge cid) w),
                    inr (res 500 (JError (message null_participants)))).
Proof.
  intros F H. unfold accept, try_catch.
  erewrite bind_ok by (by apply findChallenge_ok).
  by rewrite found_challenge_None.
Qed.

Lemma complete_unknown_challenge cid u w :
  fault (env w) (db_calls w) = None → challenges (db w) !! cid = None →
  complete cid u w = (called (logged (EvFindChallenge cid) w),
                      inr (res 500 (JError (message null_participants)))).
Proof.
  intros F H. unfold complete, try_catch.
  erewrite bind_ok by (by apply findChallenge_ok).
  by rewrite found_challenge_None.
Qed.

Lemma join_duplicate cid u w f i p :
  fault (env w) (db_calls w) = None → challenges (db w) !! cid = Some f →
  find_participant u (c_participants f) = Some (i, p) →
  join cid u w = (called (logged (EvFindChallenge cid) w),
                  inr (res 400 (JError "User already joined"))).
Proof.
  intros F H Hf. unfold join, try_catch.
  erewrite bind_ok by (by apply findChallenge_ok).
  rewrite (found_challenge_Some _ _ _ H). unfold participants; simpl. by rewrite Hf.
Qed.

Lemma accept_stranger cid u w f :
  fault (env w) (db_calls w) = None → challenges (db w) !! cid = Some f →
  find_participant u (c_participants f) = None →
  accept cid u w = (called (logged (EvFindChallenge cid) w),
                    inr (res 404 (JError "User not in participant list"))).
Proof.
  intros F H Hf. unfold accept, try_catch.
  erewrite bind_ok by (by apply findChallenge_ok).
  rewrite (found_challenge_Some _ _ _ H).
  erewrite bind_ok by reflexivity.
  unfold participants; simpl. by rewrite Hf.
Qed.

Lemma complete_stranger cid u w f :
  fault (env w) (db_calls w) = None → challenges (db w) !! cid = Some f →
  find_participant u (c_participants f) = None →
  complete cid u w = (called (logged (EvFindChallenge cid) w),
                      inr (res 404 (JError "User not in participant list"))).
Proof.
  intros F H Hf. unfold complete, try_catch.
  erewrite bind_ok by (by apply findChallenge_ok).
  rewrite (found_challenge_Some _ _ _ H).
  erewrite bind_ok by reflexivity.
  unfold participants; simpl. by rewrite Hf.
Qed.

Lemma accept_participant cid u w f i p :
  reliable (env w) → challenges (db w) !! cid = Some f →
  find_participant u (c_participants f) = Some (i, p) →
  let c := {| c_id := cid;
              c_fields := with_roster (<[i := set_accepted p]> (c_participants f)) f |} in
  accept cid u w =
    (logged (EvSaveChallenge c) (stored c (called (called (logged (EvFindChallenge cid) w)))),
     inr (res 200 (JResult "Challenge accepted" c))).
Proof.
  intros Hrel H Hf c. unfold accept, try_catch.
  erewrite bind_ok by (apply findChallenge_ok; apply Hrel).
  rewrite (found_challenge_Some _ _ _ H).
  erewrite bind_ok by reflexivity.
  unfold participants; simpl. rewrite Hf.
  erewrite bind_ok by (apply save_ok; apply Hrel).
  reflexivity.
Qed.

Lemma complete_participant cid u w f i p :
  reliable (env w) → challenges (db w) !! cid = Some f →
  find_participant u (c_participants f) = Some (i, p) →
  let c := {| c_id := cid;
              c_fields := with_roster
                            (<[i := set_completed (clock (env w) (ticks w)) p]> (c_participants f))
                            f |} in
  complete cid u w =
    (logged (EvSaveChallenge c)
       (stored c (called (with_ticks (S (ticks w))
                            (called (logged (EvFindChallenge cid) w))))),
     inr (res 200 (JResult "Challenge marked as completed" c))).
Proof.
  intros Hrel H Hf c. unfold complete, try_catch.
  erewrite bind_ok by (apply findChallenge_ok; apply Hrel).
  rewrite (found_challenge_Some _ _ _ H).
  erewrite bind_ok by reflexivity.
  unfold participants; simpl. rewrite Hf.
  erewrite bind_ok by reflexivity.
  erewrite bind_ok by (apply save_ok; apply Hrel).
  reflexivity.
Qed.

Lemma join_newcomer cid u w f :
  reliable (env w) → challenges (db w) !! cid = Some f →
  find_participant u (c_participants f) = None →
  let c := {| c_id := cid;
              c_fields := with_roster (c_participants f ++ [new_participant u]) f |} in
  join cid u w =
    (logged (EvSaveChallenge c) (stored c (called (called (logged (EvFindChallenge cid) w)))),
     inr (res 200 (JResult "Joined challenge successfully" c))).
Proof.
  intros Hrel H Hf c. unfold join, try_catch.
  erewrite bind_ok by (apply findChallenge_ok; apply Hrel).
  rewrite (found_challenge_Some _ _ _ H).
  unfold participants; simpl. rewrite Hf.
  erewrite bind_ok by (apply save_ok; apply Hrel).
  reflexivity.
Qed.

(** The roster invariant of the data model, one entry per user identity,
    is kept by [/join]. *)
Lemma join_keeps_roster_invariant cid u w f :
  reliable (env w) → challenges (db w) !! cid = Some f →
  NoDup (map p_userId (c_participants f)) →
  ∃ f', challenges (db (join cid u w).1) !! cid = Some f'
        ∧ NoDup (map p_userId (c_participants f')).
Proof.
  intros Hrel H Hnd.
  destruct (find_participant u (c_participants f)) as [[i p]|] eqn:Hf.
  - rewrite (join_duplicate cid u w f i p) by (apply Hrel || done). simpl. eauto.
  - rewrite (join_newcomer cid u w f) by done. simpl.
    eexists; split; [apply lookup_insert_eq|]. simpl.
    rewrite map_app. simpl. apply NoDup_app. split; [done|].
    split; [|apply NoDup_singleton].
    intros x Hx Hx'. apply list_elem_of_singleton in Hx' as ->.
    apply list_elem_of_fmap in Hx as (p & Hp & Hin).
    eapply find_participant_None; eauto.
Qed.

(** ** Unknown challenges, duplicates and strangers *)

(** C4.  On a challenge id that the store resolves to nothing, [/join] answers 404
    [Challenge not found]; [/accept] and [/complete] do not test what
    [findById] returned, read [participants] of [null], and answer 500 with
    the message of the [TypeError] instead of the 404 the specification
    asks of all three.  None of the three changes the store. *)
Theorem unknown_challenge_join_404_accept_complete_500 cid u w :
  reliable (env w) →
  challenges (db w) !! cid = None →
  (join cid u w).2 = inr (res 404 (JError "Challenge not found"))
  ∧ (accept cid u w).2 =
      inr (res 500 (JError "Cannot read properties of null (reading 'participants')"))
  ∧ (complete cid u w).2 =
      inr (res 500 (JError "Cannot read properties of null (reading 'participants')"))
  ∧ db (join cid u w).1 = db w
  ∧ db (accept cid u w).1 = db w
  ∧ db (complete cid u w).1 = db w.
Proof.
  intros Hrel H.
  rewrite join_unknown_challenge, accept_unknown_challenge, complete_unknown_challenge
    by (apply Hrel || exact H).
  repeat split.
Qed.

(** C5.  On a challenge the store returns, [/join] for a user who already
    has an entry in the roster answers 400 [User already joined] and leaves
    the store, hence the roster, as it was: nothing is appended, no entry is
    touched. *)
Theorem join_already_joined_conflict cid u w f p :
  reliable (env w) →
  challenges (db w) !! cid = Some f →
  p ∈ c_participants f →
  toString (p_userId p) = u →
  (join cid u w).2 = inr (res 400 (JError "User already joined"))
  ∧ db (join cid u w).1 = db w
  ∧ challenges (db (join cid u w).1) !! cid = Some f.
Proof.
  intros Hrel H Hp Hu.
  destruct (find_participant_present u _ p Hp Hu) as (i & q & Hf).
  rewrite (join_duplicate cid u w f i q) by (apply Hrel || done).
  simpl. auto.
Qed.

(** C6.  On a challenge the store returns, [/accept] and [/complete] for a
    user with no entry in its roster answer 404 [User not in participant
    list] and leave the store as it was. *)
Theorem accept_complete_non_participant_404 cid u w f :
  reliable (env w) →
  challenges (db w) !! cid = Some f →
  (∀ p, p ∈ c_participants f → toString (p_userId p) ≠ u) →
  (accept cid u w).2 = inr (res 404 (JError "User not in participant list"))
  ∧ (complete cid u w).2 = inr (res 404 (JError "User not in participant list"))
  ∧ db (accept cid u w).1 = db w
  ∧ db (complete cid u w).1 = db w.
Proof.
  intros Hrel H Hno. apply find_participant_None in Hno.
  rewrite (accept_stranger cid u w f), (complete_stranger cid u w f) by (apply Hrel || done).
  simpl. auto.
Qed.

(** ** Accepting and completing *)

Lemma stored_updates_entry cid i p p' f d :
  challenges d !! cid = Some f → c_participants f !! i = Some p →
  updates_entry cid i p' d
    (with_challenges (<[cid := with_roster (<[i := p']> (c_participants f)) f]> (challenges d)) d).
Proof.
  intros H Hi. exists f, (with_roster (<[i := p']> (c_participants f)) f); simpl.
  split; [done|]. split; [apply lookup_insert_eq|].
  split; [apply list_lookup_insert_eq; by apply lookup_lt_Some in Hi|].
  split; [apply length_insert|].
  split; [intros j Hj; by apply list_lookup_insert_ne|].
  repeat (split; [reflexivity|]).
  split; [intros k Hk; by apply lookup_insert_ne|]. done.
Qed.

(** C7.  With a reliable store, on an existing challenge and for a user
    whose roster entry is entry [i] (the entry [find] returns; under the
    roster invariant, the only entry of that user, see
    [find_participant_unique]), [/accept] sets [accepted] and [stakeSubmitted]
    of that entry to true, [/complete] sets its [completed] to true and its
    [completedAt] to the clock reading, and in both cases nothing else
    changes: the other fields of the entry, the other entries, the name,
    description, exercises, stake and community of the challenge, and every
    other document are as before. *)
Theorem accept_complete_touch_one_entry cid u w f i p :
  reliable (env w) →
  challenges (db w) !! cid = Some f →
  find_participant u (c_participants f) = Some (i, p) →
  let now := clock (env w) (ticks w) in
  c_participants f !! i = Some p
  ∧ toString (p_userId p) = u
  ∧ (∃ c, (accept cid u w).2 = inr (res 200 (JResult "Challenge accepted" c)))
  ∧ updates_entry cid i
      {| p_userId := p_userId p; accepted := true; stakeSubmitted := true;
         completed := completed p; completedAt := completedAt p |}
      (db w) (db (accept cid u w).1)
  ∧ (∃ c, (complete cid u w).2 = inr (res 200 (JResult "Challenge marked as completed" c)))
  ∧ updates_entry cid i
      {| p_userId := p_userId p; accepted := accepted p;
         stakeSubmitted := stakeSubmitted p;
         completed := true; completedAt := Some now |}
      (db w) (db (complete cid u w).1).
Proof.
  intros Hrel H Hf now.
  destruct (find_participant_Some _ _ _ _ Hf) as (Hi & Hu & _).
  rewrite (accept_participant cid u w f i p), (complete_participant cid u w f i p) by done.
  simpl. split; [done|]. split; [done|]. split; [eauto|].
  split; [|split; [eauto|]]; by eapply stored_updates_entry.
Qed.

(** C9.  [/accept] has no guard against a repeated call: with a reliable
    store, for a user with a roster entry, a second call answers 200 again,
    with the same challenge, and leaves the store exactly as the first call
    left it, the entry of the user being accepted with its stake
    submitted. *)
Theorem accept_twice_same_as_once cid u w f p :
  reliable (env w) →
  challenges (db w) !! cid = Some f →
  p ∈ c_participants f →
  toString (p_userId p) = u →
  let once := accept cid u w in
  let twice := accept cid u once.1 in
  (∃ c, once.2 = inr (res 200 (JResult "Challenge accepted" c))
        ∧ twice.2 = inr (res 200 (JResult "Challenge accepted" c)))
  ∧ db twice.1 = db once.1
  ∧ ∃ f' i q,
      challenges (db twice.1) !! cid = Some f'
      ∧ find_participant u (c_participants f') = Some (i, q)
      ∧ accepted q = true ∧ stakeSubmitted q = true.
Proof.
  intros Hrel H Hp Hu.
  destruct (find_participant_present u _ p Hp Hu) as (i & q & Hf).
  set (ps := <[i := set_accepted q]> (c_participants f)).
  set (w1 := (accept cid u w).1).
  assert (Hw1 : accept cid u w =
                  (w1, inr (res 200 (JResult "Challenge accepted"
                                       {| c_id := cid; c_fields := with_roster ps f |})))).
  { subst w1. by rewrite (accept_participant cid u w f i q). }
  assert (H1 : challenges (db w1) !! cid = Some (with_roster ps f)).
  { subst w1. rewrite (accept_participant cid u w f i q) by done.
    simpl. apply lookup_insert_eq. }
  assert (Hf1 : find_participant u (c_participants (with_roster ps f))
                = Some (i, set_accepted q)).
  { simpl. eapply find_participant_insert; [exact Hf|reflexivity]. }
  assert (Hrel1 : reliable (env w1)).
  { subst w1. rewrite (accept_participant cid u w f i q) by done. exact Hrel. }
  assert (Hps : <[i := set_accepted (set_accepted q)]> (c_participants (with_roster ps f)) = ps).
  { simpl. subst ps. by rewrite list_insert_insert_eq. }
  simpl. rewrite Hw1; simpl.
  rewrite (accept_participant cid u w1 (with_roster ps f) i (set_accepted q)) by done.
  rewrite Hps; simpl.
  split; [eauto|]. split.
  - destruct (db w1) as [cs ms ns] eqn:Hdb; simpl in *.
    unfold with_challenges; simpl. f_equal. by apply insert_id.
  - exists (with_roster ps f), i, (set_accepted q).
    split; [apply lookup_insert_eq|]. by split.
Qed.

(** ** The scenario, replayed *)

Import Scenario.

Lemma initializeRouter_run socketIO socketUsers w :
  initializeRouter socketIO socketUsers w = (with_sockets socketIO socketUsers w, inr tt).
Proof. reflexivity. Qed.

Example scenario_wired :
  (initializeRouter (Some SocketIOServer) (Some sockets0) w_unwired).1 = w0.
Proof. reflexivity. Qed.

(** The registry is read when the pushes are made, not when the request
    comes in: [u2], registered at first, disconnects during the bulk insert
    and gets no push; the three records are persisted. *)
Example disconnect_during_insert_no_push :
  userSockets w_leaving = Some sockets0
  ∧ pushes_for "u2" (new_trace w_leaving (create body0 w_leaving).1) = []
  ∧ map n_userId (new_notifications w_leaving (create body0 w_leaving).1) = ["u1"; "u2"; "u3"].
Proof. vm_compute. repeat split. Qed.

Lemma scenario_reliable : reliable (env w0).
Proof. intros k; reflexivity. Defined.

Lemma scenario_community : communities (db w0) !! b_communityId body0 = Some c1.
Proof. vm_compute; reflexivity. Defined.

Lemma scenario_challenge : challenges (db w1) !! "ch1" = Some f1.
Proof. vm_compute; reflexivity. Defined.

(** Three members, three invites. *)
Lemma create_persists_one_invite_per_member_witness :
  length (new_notifications w0 (create body0 w0).1) = 3
  ∧ map n_userId (new_notifications w0 (create body0 w0).1) = ["u1"; "u2"; "u3"]
  ∧ NoDup (map n_userId (new_notifications w0 (create body0 w0).1)).
Proof.
  pose proof (create_persists_one_invite_per_member body0 w0 c1
                scenario_reliable scenario_community) as H.
  cbv zeta in H. destruct H as (_ & Hlen & Hrec & Hnd & _).
  split; [exact Hlen|]. split; [exact Hrec|].
  apply Hnd. apply (bool_decide_unpack _). vm_compute; reflexivity.
Defined.

(** [u2] is connected and gets one push; [u1] is not and gets none. *)
Lemma dispatch_pushes_once_to_registered_witness :
  (∃ n, n ∈ notifications (db (create body0 w0).1)
        ∧ pushes_for "u2" (new_trace w0 (create body0 w0).1)
          = [EvEmit "socket-2" "new_notification" n])
  ∧ pushes_for "u1" (new_trace w0 (create body0 w0).1) = [].
Proof.
  assert (Hnd : NoDup (map m_userId (members c1))).
  { apply (bool_decide_unpack _). vm_compute; reflexivity. }
  assert (Hus : userSockets (create body0 w0).1 = Some sockets0) by (vm_compute; reflexivity).
  pose proof (dispatch_pushes_once_to_registered body0 w0 c1 sockets0
                scenario_reliable scenario_community Hnd (mk_is_Some _ _ eq_refl) Hus) as H.
  cbv zeta in H. split.
  - destruct (H "u2") as (n & _ & Hn & _ & Hpush & _).
    { apply (bool_decide_unpack _). vm_compute; reflexivity. }
    exists n. split; [exact Hn|]. apply (Hpush "socket-2"); vm_compute; reflexivity.
  - destruct (H "u1") as (n & _ & _ & _ & _ & Hnone).
    { apply (bool_decide_unpack _). vm_compute; reflexivity. }
    apply Hnone. vm_compute; reflexivity.
Defined.

(** The push to [u2] comes after the insert of the record it carries. *)
Lemma push_only_after_persist_witness :
  (n2 ∈ notifications (db (create body0 w0).1)
   ∧ ∃ i, i < 5 ∧ new_trace w0 (create body0 w0).1 !! i = Some (EvInsertNotification n2))
  ∧ ∃ n, n ∈ notifications (db (create body0 w0).1) ∧ n_userId n = "u1".
Proof.
  pose proof (push_only_after_persist body0 w0) as H.
  cbv zeta in H. destruct H as [Horder Hstored]. split.
  - apply (Horder 5 "socket-2" "new_notification" n2). vm_compute; reflexivity.
  - apply (Hstored c1 "u1" scenario_reliable scenario_community).
    apply (bool_decide_unpack _). vm_compute; reflexivity.
Defined.

(** No community [C9]: 404, and the challenge is there. *)
Lemma create_without_community_leaves_challenge_witness :
  (create body_nowhere w0).2 = inr (res 404 (JMessage "Community not found"))
  ∧ challenges (db (create body_nowhere w0).1) !! c_id (built body_nowhere w0)
    = Some (c_fields (built body_nowhere w0)).
Proof.
  pose proof (create_without_community_leaves_challenge body_nowhere w0) as H.
  cbv zeta in H. destruct H as (Hres & _ & Hch & _).
  - exact scenario_reliable.
  - vm_compute; reflexivity.
  - split; [exact Hres|exact Hch].
Defined.

(** Before [initializeRouter]: three invites, no push. *)
Lemma create_without_sockets_persists_and_stays_silent_witness :
  length (new_notifications w_unwired (create body0 w_unwired).1) = 3
  ∧ List.filter is_emit (new_trace w_unwired (create body0 w_unwired).1) = [].
Proof.
  pose proof (create_without_sockets_persists_and_stays_silent body0 w_unwired c1) as H.
  cbv zeta in H. destruct H as (_ & _ & Hlen & _ & _ & Hsilent).
  - left; reflexivity.
  - exact scenario_reliable.
  - exact scenario_community.
  - split; [exact Hlen|exact Hsilent].
Defined.

(** No challenge [ch0]: join says 404, accept says 500. *)
Lemma unknown_challenge_join_404_accept_complete_500_witness :
  (join "ch0" "u1" w1).2 = inr (res 404 (JError "Challenge not found"))
  ∧ (accept "ch0" "u1" w1).2 =
      inr (res 500 (JError "Cannot read properties of null (reading 'participants')"))
  ∧ (complete "ch0" "u1" w1).2 =
      inr (res 500 (JError "Cannot read properties of null (reading 'participants')")).
Proof.
  destruct (unknown_challenge_join_404_accept_complete_500 "ch0" "u1" w1)
    as (Hj & Ha & Hc & _).
  - exact scenario_reliable.
  - vm_compute; reflexivity.
  - split; [exact Hj|]. split; [exact Ha|exact Hc].
Defined.

(** [u1] has joined [ch1]: a second join is a conflict. *)
Lemma join_already_joined_conflict_witness :
  (join "ch1" "u1" w1).2 = inr (res 400 (JError "User already joined"))
  ∧ db (join "ch1" "u1" w1).1 = db w1.
Proof.
  destruct (join_already_joined_conflict "ch1" "u1" w1 f1 (new_participant "u1"))
    as (Hres & Hdb & _).
  - exact scenario_reliable.
  - exact scenario_challenge.
  - simpl; left.
  - reflexivity.
  - split; [exact Hres|exact Hdb].
Defined.

(** [u4] has not joined [ch1]. *)
Lemma accept_complete_non_participant_404_witness :
  (accept "ch1" "u4" w1).2 = inr (res 404 (JError "User not in participant list"))
  ∧ (complete "ch1" "u4" w1).2 = inr (res 404 (JError "User not in participant list")).
Proof.
  destruct (accept_complete_non_participant_404 "ch1" "u4" w1 f1) as (Ha & Hc & _).
  - exact scenario_reliable.
  - exact scenario_challenge.
  - intros p Hp. apply find_participant_None with (ps := c_participants f1); [|exact Hp].
    vm_compute; reflexivity.
  - split; [exact Ha|exact Hc].
Defined.

(** [u2] is entry 1 of the roster of [ch1]. *)
Lemma accept_complete_touch_one_entry_witness :
  updates_entry "ch1" 1
    {| p_userId := "u2"; accepted := true; stakeSubmitted := true;
       completed := false; completedAt := None |}
    (db w1) (db (accept "ch1" "u2" w1).1)
  ∧ updates_entry "ch1" 1
      {| p_userId := "u2"; accepted := false; stakeSubmitted := false;
         completed := true; completedAt := Some 1700000000000%Z |}
      (db w1) (db (complete "ch1" "u2" w1).1).
Proof.
  pose proof (accept_complete_touch_one_entry "ch1" "u2" w1 f1 1 (new_participant "u2")
                scenario_reliable scenario_challenge eq_refl) as H.
  cbv zeta in H. destruct H as (_ & _ & _ & Ha & _ & Hc).
  split; [exact Ha|exact Hc].
Defined.

(** [u1] accepts [ch1] twice. *)
Lemma accept_twice_same_as_once_witness :
  db (accept "ch1" "u1" (accept "ch1" "u1" w1).1).1 = db (accept "ch1" "u1" w1).1.
Proof.
  pose proof (accept_twice_same_as_once "ch1" "u1" w1 f1 (new_participant "u1")
                scenario_reliable scenario_challenge) as H.
  cbv zeta in H. destruct H as (_ & Hdb & _).
  - simpl; left.
  - reflexivity.
  - exact Hdb.
Defined.

(** * Further properties of the router *)

(** ** What the roster handlers do in every world *)

Lemma quiet_find cid : quiet [EvFindChallenge cid].
Proof. repeat constructor. Qed.

Lemma quiet_find_save cid c : quiet [EvFindChallenge cid; EvSaveChallenge c].
Proof. repeat constructor. Qed.

Lemma join_outcome cid u w :
  roster_outcome cid "Joined challenge successfully"
    (λ ps ps', find_participant u ps = None ∧ ps' = ps ++ [new_participant u])
    w (join cid u w).
Proof.
  unfold roster_outcome, join, try_catch.
  destruct (fault (env w) (db_calls w)) as [j|] eqn:F0.
  { erewrite bind_throw by (eapply findChallenge_fail; exact F0).
    eexists _, [EvFindChallenge cid]. split; [reflexivity|]. split; [reflexivity|].
    split; [apply quiet_find|]. split; [reflexivity|]. left. split; [simpl; set_solver|done]. }
  erewrite bind_ok by (by apply findChallenge_ok).
  destruct (challenges (db w) !! cid) as [f|] eqn:H.
  2:{ rewrite (found_challenge_None _ _ H).
      eexists _, [EvFindChallenge cid]. split; [reflexivity|]. split; [reflexivity|].
      split; [apply quiet_find|]. split; [reflexivity|]. left. split; [simpl; set_solver|done]. }
  rewrite (found_challenge_Some _ _ _ H). unfold participants; simpl.
  destruct (find_participant u (c_participants f)) as [[i p]|] eqn:Hf.
  { eexists _, [EvFindChallenge cid]. split; [reflexivity|]. split; [reflexivity|].
    split; [apply quiet_find|]. split; [reflexivity|]. left. split; [simpl; set_solver|done]. }
  destruct (fault (env w) (S (db_calls w))) as [j|] eqn:F1.
  { erewrite bind_throw by (eapply save_fail; exact F1).
    eexists _, [EvFindChallenge cid]. split; [reflexivity|]. split; [reflexivity|].
    split; [apply quiet_find|]. split; [reflexivity|]. left. split; [simpl; set_solver|done]. }
  erewrite bind_ok by (apply save_ok; exact F1).
  eexists _, [EvFindChallenge cid; EvSaveChallenge _]. split; [reflexivity|].
  split; [simpl; by rewrite <- app_assoc|]. split; [apply quiet_find_save|].
  split; [reflexivity|]. right. exists f, (c_participants f ++ [new_participant u]).
  repeat split; done.
Qed.

Lemma accept_outcome cid u w :
  roster_outcome cid "Challenge accepted"
    (λ ps ps', ∃ i p, find_participant u ps = Some (i, p) ∧ ps' = <[i := set_accepted p]> ps)
    w (accept cid u w).
Proof.
  unfold roster_outcome, accept, try_catch.
  destruct (fault (env w) (db_calls w)) as [j|] eqn:F0.
  { erewrite bind_throw by (eapply findChallenge_fail; exact F0).
    eexists _, [EvFindChallenge cid]. split; [reflexivity|]. split; [reflexivity|].
    split; [apply quiet_find|]. split; [reflexivity|]. left. split; [simpl; set_solver|done]. }
  erewrite bind_ok by (by apply findChallenge_ok).
  destruct (challenges (db w) !! cid) as [f|] eqn:H.
  2:{ rewrite (found_challenge_None _ _ H).
      eexists _, [EvFindChallenge cid]. split; [reflexivity|]. split; [reflexivity|].
      split; [apply quiet_find|]. split; [reflexivity|]. left. split; [simpl; set_solver|done]. }
  rewrite (found_challenge_Some _ _ _ H).
  erewrite bind_ok by reflexivity. unfold participants; simpl.
  destruct (find_participant u (c_participants f)) as [[i p]|] eqn:Hf.
  2:{ eexists _, [EvFindChallenge cid]. split; [reflexivity|]. split; [reflexivity|].
      split; [apply quiet_find|]. split; [reflexivity|]. left. split; [simpl; set_solver|done]. }
  destruct (fault (env w) (S (db_calls w))) as [j|] eqn:F1.
  { erewrite bind_throw by (eapply save_fail; exact F1).
    eexists _, [EvFindChallenge cid]. split; [reflexivity|]. split; [reflexivity|].
    split; [apply quiet_find|]. split; [reflexivity|]. left. split; [simpl; set_solver|done]. }
  erewrite bind_ok by (apply save_ok; exact F1).
  eexists _, [EvFindChallenge cid; EvSaveChallenge _]. split; [reflexivity|].
  split; [simpl; by rewrite <- app_assoc|]. split; [apply quiet_find_save|].
  split; [reflexivity|]. right. exists f, (<[i := set_accepted p]> (c_participants f)).
  repeat split; eauto.
Qed.

Lemma complete_outcome cid u w :
  roster_outcome cid "Challenge marked as completed"
    (λ ps ps', ∃ i p, find_participant u ps = Some (i, p)
                      ∧ ps' = <[i := set_completed (clock (env w) (ticks w)) p]> ps)
    w (complete cid u w).
Proof.
  unfold roster_outcome, complete, try_catch.
  destruct (fault (env w) (db_calls w)) as [j|] eqn:F0.
  { erewrite bind_throw by (eapply findChallenge_fail; exact F0).
    eexists _, [EvFindChallenge cid]. split; [reflexivity|]. split; [reflexivity|].
    split; [apply quiet_find|]. split; [reflexivity|]. left. split; [simpl; set_solver|done]. }
  erewrite bind_ok by (by apply findChallenge_ok).
  destruct (challenges (db w) !! cid) as [f|] eqn:H.
  2:{ rewrite (found_challenge_None _ _ H).
      eexists _, [EvFindChallenge cid]. split; [reflexivity|]. split; [reflexivity|].
      split; [apply quiet_find|]. split; [reflexivity|]. left. split; [simpl; set_solver|done]. }
  rewrite (found_challenge_Some _ _ _ H).
  erewrite bind_ok by reflexivity. unfold participants; simpl.
  destruct (find_participant u (c_participants f)) as [[i p]|] eqn:Hf.
  2:{ eexists _, [EvFindChallenge cid]. split; [reflexivity|]. split; [reflexivity|].
      split; [apply quiet_find|]. split; [reflexivity|]. left. split; [simpl; set_solver|done]. }
  erewrite bind_ok by reflexivity.
  destruct (fault (env w) (S (db_calls w))) as [j|] eqn:F1.
  { erewrite bind_throw by (eapply save_fail; exact F1).
    eexists _, [EvFindChallenge cid]. split; [reflexivity|]. split; [reflexivity|].
    split; [apply quiet_find|]. split; [reflexivity|]. left. split; [simpl; set_solver|done]. }
  erewrite bind_ok by (apply save_ok; exact F1).
  eexists _, [EvFindChallenge cid; EvSaveChallenge _]. split; [reflexivity|].
  split; [simpl; by rewrite <- app_assoc|]. split; [apply quiet_find_save|].
  split; [reflexivity|]. right.
  exists f, (<[i := set_completed (clock (env w) (ticks w)) p]> (c_participants f)).
  repeat split; eauto.
Qed.

Lemma roster_outcome_closed cid msg step w r :
  roster_outcome cid msg step w r →
  ∃ resp,
    r.2 = inr resp
    ∧ status resp ∈ [200; 400; 404; 500]
    ∧ (status resp ≠ 200 → db r.1 = db w)
    ∧ communities (db r.1) = communities (db w)
    ∧ notifications (db r.1) = notifications (db w)
    ∧ (∀ k, k ≠ cid → challenges (db r.1) !! k = challenges (db w) !! k)
    ∧ quiet (new_trace w r.1).
Proof.
  intros (resp & t & Hr & Ht & Hq & _ & Hcases). exists resp.
  rewrite (new_trace_app _ _ _ Ht). split; [done|].
  destruct Hcases as [[Hst Hdb]|(f & ps & H & _ & -> & Hdb)].
  - rewrite Hdb. split; [by right|]. done.
  - rewrite Hdb; simpl. split; [by left|]. split; [done|].
    repeat (split; [done|]). split; [|done]. intros k Hk. by apply lookup_insert_ne.
Qed.

(** X1.  [/join], [/accept] and [/complete] always answer, whatever the
    store does and whatever is stored, with 200, 400, 404 or 500.  When the
    answer is not 200 the store is as it was.  In every case the community
    and notification collections and every other challenge are as they
    were, and the handler neither writes a notification nor pushes one. *)
Theorem roster_handlers_fail_closed cid u w :
  Forall (λ handler : string → string → M Response,
            ∃ resp,
              (handler cid u w).2 = inr resp
              ∧ status resp ∈ [200; 400; 404; 500]
              ∧ (status resp ≠ 200 → db (handler cid u w).1 = db w)
              ∧ communities (db (handler cid u w).1) = communities (db w)
              ∧ notifications (db (handler cid u w).1) = notifications (db w)
              ∧ (∀ k, k ≠ cid →
                   challenges (db (handler cid u w).1) !! k = challenges (db w) !! k)
              ∧ quiet (new_trace w (handler cid u w).1))
         [join; accept; complete].
Proof.
  repeat constructor.
  - eapply roster_outcome_closed, join_outcome.
  - eapply roster_outcome_closed, accept_outcome.
  - eapply roster_outcome_closed, complete_outcome.
Qed.





(** ** Joining *)

(** X3.  With a reliable store, [/join] for a user who has no entry in the
    roster of an existing challenge answers 200 with the challenge as it is
    stored from then on: the roster is the old one followed by one entry for
    that user, and the other fields of the challenge, the other challenges
    and the other collections are as they were. *)
Theorem join_appends_one_entry cid u w f :
  reliable (env w) →
  challenges (db w) !! cid = Some f →
  (∀ p, p ∈ c_participants f → toString (p_userId p) ≠ u) →
  ∃ f' entry,
    (join cid u w).2 =
      inr (res 200 (JResult "Joined challenge successfully" {| c_id := cid; c_fields := f' |}))
    ∧ challenges (db (join cid u w).1) !! cid = Some f'
    ∧ c_participants f' = c_participants f ++ [entry]
    ∧ p_userId entry = u
    ∧ c_communityId f' = c_communityId f ∧ c_name f' = c_name f
    ∧ c_description f' = c_description f ∧ c_exercises f' = c_exercises f
    ∧ c_stake f' = c_stake f
    ∧ (∀ k, k ≠ cid → challenges (db (join cid u w).1) !! k = challenges (db w) !! k)
    ∧ communities (db (join cid u w).1) = communities (db w)
    ∧ notifications (db (join cid u w).1) = notifications (db w).
Proof.
  intros Hrel H Hno. apply find_participant_None in Hno.
  rewrite (join_newcomer cid u w f) by done. simpl.
  exists (with_roster (c_participants f ++ [new_participant u]) f), (new_participant u).
  split; [done|]. split; [apply lookup_insert_eq|]. simpl.
  repeat (split; [done|]). split; [|done]. intros k Hk. by apply lookup_insert_ne.
Qed.

Lemma join_appends_one_entry_witness :
  ∃ f', challenges (db (join "ch1" "u3" w1).1) !! "ch1" = Some f'
        ∧ map p_userId (c_participants f') = ["u1"; "u2"; "u3"].
Proof.
  destruct (join_appends_one_entry "ch1" "u3" w1 f1 scenario_reliable scenario_challenge)
    as (f' & entry & _ & Hf' & Hps & Hu & _).
  - intros p Hp. apply find_participant_None with (ps := c_participants f1); [|exact Hp].
    vm_compute; reflexivity.
  - exists f'. split; [exact Hf'|]. rewrite Hps, map_app. simpl. by rewrite Hu.
Defined.




(** ** Accepting and completing, in either order and again *)

(** X5.  With a reliable store, for a user with a roster entry, [/accept]
    and [/complete] can come in either order: both answer 200 both times and
    the store is the same in the end, the entry of the user being accepted,
    its stake submitted, completed, and dated by the one reading of the
    clock that [/complete] made.  Completing does not require accepting. *)
Theorem accept_complete_commute cid u w f p :
  reliable (env w) →
  challenges (db w) !! cid = Some f →
  p ∈ c_participants f →
  toString (p_userId p) = u →
  let accepted_first := complete cid u (accept cid u w).1 in
  let completed_first := accept cid u (complete cid u w).1 in
  db accepted_first.1 = db completed_first.1
  ∧ (∃ c, accepted_first.2 = inr (res 200 (JResult "Challenge marked as completed" c))
          ∧ completed_first.2 = inr (res 200 (JResult "Challenge accepted" c)))
  ∧ ∃ f' i q,
      challenges (db accepted_first.1) !! cid = Some f'
      ∧ find_participant u (c_participants f') = Some (i, q)
      ∧ accepted q = true ∧ stakeSubmitted q = true ∧ completed q = true
      ∧ completedAt q = Some (clock (env w) (ticks w)).
Proof.
  intros Hrel H Hp Hu.
  destruct (find_participant_present u _ p Hp Hu) as (i & q & Hf).
  set (now := clock (env w) (ticks w)).
  set (ps_a := <[i := set_accepted q]> (c_participants f)).
  set (ps_c := <[i := set_completed now q]> (c_participants f)).
  simpl.
  rewrite (accept_participant cid u w f i q), (complete_participant cid u w f i q) by done.
  simpl. fold now ps_a ps_c.
  assert (Hfa : find_participant u ps_a = Some (i, set_accepted q)).
  { eapply find_participant_insert; [exact Hf|reflexivity]. }
  assert (Hfc : find_participant u ps_c = Some (i, set_completed now q)).
  { eapply find_participant_insert; [exact Hf|reflexivity]. }
  rewrite (complete_participant cid u _ (with_roster ps_a f) i (set_accepted q));
    [|exact Hrel|simpl; apply lookup_insert_eq|exact Hfa].
  rewrite (accept_participant cid u _ (with_roster ps_c f) i (set_completed now q));
    [|exact Hrel|simpl; apply lookup_insert_eq|exact Hfc].
  simpl. fold now.
  assert (Hps : <[i := set_completed now (set_accepted q)]> ps_a
                = <[i := set_accepted (set_completed now q)]> ps_c).
  { subst ps_a ps_c. by rewrite !list_insert_insert_eq. }
  rewrite Hps. split; [|split].
  - unfold with_challenges; simpl. by rewrite !insert_insert_eq.
  - eauto.
  - eexists _, i, _. split; [apply lookup_insert_eq|]. simpl.
    split; [eapply find_participant_insert; [exact Hfc|reflexivity]|].
    done.
Qed.

Lemma accept_complete_commute_witness :
  db (complete "ch1" "u2" (accept "ch1" "u2" w1).1).1
  = db (accept "ch1" "u2" (complete "ch1" "u2" w1).1).1.
Proof.
  pose proof (accept_complete_commute "ch1" "u2" w1 f1 (new_participant "u2")
                scenario_reliable scenario_challenge) as H.
  cbv zeta in H. destruct H as (Hdb & _).
  - simpl; right; left.
  - reflexivity.
  - exact Hdb.
Defined.

(** X6.  [/complete] has no guard against a repeated call either, but
    unlike [/accept] it is not idempotent: with a reliable store a second
    call answers 200 again and overwrites [completedAt] with its own reading
    of the clock, the one after the reading of the first call. *)
Theorem complete_twice_last_reading_wins cid u w f p :
  reliable (env w) →
  challenges (db w) !! cid = Some f →
  p ∈ c_participants f →
  toString (p_userId p) = u →
  let once := complete cid u w in
  let twice := complete cid u once.1 in
  (∃ c, twice.2 = inr (res 200 (JResult "Challenge marked as completed" c)))
  ∧ ∃ f1 f2 i q1 q2,
      challenges (db once.1) !! cid = Some f1
      ∧ challenges (db twice.1) !! cid = Some f2
      ∧ find_participant u (c_participants f1) = Some (i, q1)
      ∧ find_participant u (c_participants f2) = Some (i, q2)
      ∧ completedAt q1 = Some (clock (env w) (ticks w))
      ∧ completedAt q2 = Some (clock (env w) (S (ticks w)))
      ∧ completed q2 = true
      ∧ accepted q2 = accepted q1 ∧ stakeSubmitted q2 = stakeSubmitted q1.
Proof.
  intros Hrel H Hp Hu.
  destruct (find_participant_present u _ p Hp Hu) as (i & q & Hf).
  set (now := clock (env w) (ticks w)).
  set (ps1 := <[i := set_completed now q]> (c_participants f)).
  simpl. rewrite (complete_participant cid u w f i q) by done. simpl. fold now ps1.
  assert (Hf1 : find_participant u ps1 = Some (i, set_completed now q)).
  { eapply find_participant_insert; [exact Hf|reflexivity]. }
  rewrite (complete_participant cid u _ (with_roster ps1 f) i (set_completed now q));
    [|exact Hrel|simpl; apply lookup_insert_eq|exact Hf1].
  simpl. split; [eauto|].
  eexists (with_roster ps1 f), _, i, (set_completed now q), _.
  split; [apply lookup_insert_eq|]. split; [apply lookup_insert_eq|].
  split; [exact Hf1|]. split.
  { simpl. eapply find_participant_insert; [exact Hf1|reflexivity]. }
  simpl. done.
Qed.

Lemma complete_twice_last_reading_wins_witness :
  ∃ f2 i q2,
    challenges (db (complete "ch1" "u2" (complete "ch1" "u2" w1).1).1) !! "ch1" = Some f2
    ∧ find_participant "u2" (c_participants f2) = Some (i, q2)
    ∧ completedAt q2 = Some 1700000000001%Z.
Proof.
  pose proof (complete_twice_last_reading_wins "ch1" "u2" w1 f1 (new_participant "u2")
                scenario_reliable scenario_challenge) as H.
  cbv zeta in H. destruct H as (_ & g1 & g2 & i & q1 & q2 & _ & H2 & _ & Hf2 & _ & Hat & _).
  - simpl; right; left.
  - reflexivity.
  - exists g2, i, q2. split; [exact H2|]. split; [exact Hf2|exact Hat].
Defined.

(** ** What creating does in every world *)

(** The answer of [/create], read off the outcomes of its store calls. *)
Lemma create_outcome body w :
  ∃ resp pre ns pushed,
    (create body w).2 = inr resp
    ∧ trace (create body w).1 = trace w ++ pre ++ map EvInsertNotification ns ++ pushed
    ∧ quiet pre
    ∧ Forall (λ e, is_emit e = true) pushed
    ∧ (status resp ≠ 200 → pushed = [])
    ∧ (is_Some (fault (env w) (db_calls w)) → ns = [])
    ∧ notifications (db (create body w).1) = notifications (db w) ++ ns
    ∧ communities (db (create body w).1) = communities (db w)
    ∧ challenges (db (create body w).1) =
        match fault (env w) (db_calls w) with
        | Some _ => challenges (db w)
        | None => <[c_id (built body w) := c_fields (built body w)]> (challenges (db w))
        end
    ∧ status resp =
        match fault (env w) (db_calls w) with
        | Some _ => 500
        | None =>
            match fault (env w) (S (db_calls w)) with
            | Some _ => 500
            | None =>
                match communities (db w) !! b_communityId body with
                | None => 404
                | Some _ =>
                    match fault (env w) (S (S (db_calls w))) with
                    | Some _ => 500
                    | None => 200
                    end
                end
            end
        end.
Proof.
  set (ch := built body w).
  set (w0 := with_oids (S (oids w)) w).
  destruct (fault (env w) (db_calls w)) as [j0|] eqn:F0.
  { exists (res 500 (JMessage (message store_failure))), [], [], [].
    unfold create, try_catch.
    erewrite bind_ok by apply new_communityChallenge_run.
    erewrite bind_throw by (eapply save_fail; exact F0).
    simpl. rewrite !app_nil_r. repeat split; auto; constructor. }
  set (w1 := logged (EvSaveChallenge ch) (stored ch (called w0))).
  set (pre := [EvSaveChallenge ch; EvFindCommunity (b_communityId body)]).
  assert (Hpre : quiet pre) by (repeat constructor).
  destruct (fault (env w) (S (db_calls w))) as [j1|] eqn:F1.
  { exists (res 500 (JMessage (message store_failure))), pre, [], [].
    unfold create, try_catch.
    erewrite bind_ok by apply new_communityChallenge_run.
    erewrite bind_ok by (apply save_ok; exact F0).
    erewrite bind_throw by (eapply findCommunity_fail; exact F1).
    simpl. rewrite !app_nil_r, <- app_assoc. repeat split; auto; by intros [??]. }
  set (w2 := called (logged (EvFindCommunity (b_communityId body)) w1)).
  destruct (communities (db w) !! b_communityId body) as [comm|] eqn:Hcomm; cycle 1.
  { exists (res 404 (JMessage "Community not found")), pre, [], [].
    unfold create, try_catch.
    erewrite bind_ok by apply new_communityChallenge_run.
    erewrite bind_ok by (apply save_ok; exact F0).
    erewrite bind_ok by (apply findCommunity_ok; exact F1).
    simpl. rewrite Hcomm. simpl. rewrite !app_nil_r, <- app_assoc. repeat split; auto; by intros [??]. }
  destruct (mapM_invite ch body (map m_userId (members comm)) w2) as (docs & Hdocs & _).
  set (w3 := with_ticks _ w2) in Hdocs.
  destruct (fault (env w) (S (S (db_calls w)))) as [j2|] eqn:F2.
  { destruct (insertMany_fail docs w3 j2 F2) as (ns & Hins & _).
    exists (res 500 (JMessage (message store_failure))), pre, ns, [].
    unfold create, try_catch.
    erewrite bind_ok by apply new_communityChallenge_run.
    erewrite bind_ok by (apply save_ok; exact F0).
    erewrite bind_ok by (apply findCommunity_ok; exact F1).
    simpl. rewrite Hcomm.
    erewrite bind_ok by exact Hdocs.
    erewrite bind_throw by exact Hins.
    simpl. rewrite !app_nil_r, <- !app_assoc. repeat split; auto; by intros [??]. }
  destruct (insertMany_ok docs w3 F2) as (ns & Hins & _).
  set (w4 := inserted _ ns _) in Hins.
  exists (res 200 (JChallenge ch)), pre, ns, (dispatch_events w4 ns).
  destruct (run_dispatch ns w4) as (w5 & Hpush & ->).
  unfold create, try_catch.
  erewrite bind_ok by apply new_communityChallenge_run.
  erewrite bind_ok by (apply save_ok; exact F0).
  erewrite bind_ok by (apply findCommunity_ok; exact F1).
  simpl. rewrite Hcomm.
  erewrite bind_ok by exact Hdocs.
  erewrite bind_ok by exact Hins.
  erewrite bind_ok by reflexivity.
  erewrite bind_ok by exact Hpush.
  simpl. rewrite <- !app_assoc. repeat split; auto.
  - pose proof (dispatch_emits w4 ns) as Hem.
    eapply Forall_impl; [exact Hem|]. by intros e (s & n & -> & _).
  - done.
  - by intros [??].
Qed.

(** X7.  [/create] always answers, and its status is decided by its three
    store calls and the community lookup: 500 when the save of the challenge
    is rejected; else 500 when the lookup of the community is rejected; else
    404 when there is no such community; else 500 when the bulk insert is
    rejected; else 200. *)
Theorem create_status_table body w :
  ∃ resp,
    (create body w).2 = inr resp
    ∧ status resp =
        match fault (env w) (db_calls w) with
        | Some _ => 500
        | None =>
            match fault (env w) (S (db_calls w)) with
            | Some _ => 500
            | None =>
                match communities (db w) !! b_communityId body with
                | None => 404
                | Some _ =>
                    match fault (env w) (S (S (db_calls w))) with
                    | Some _ => 500
                    | None => 200
                    end
                end
            end
        end.
Proof.
  destruct (create_outcome body w)
    as (resp & pre & ns & pushed & Hr & _ & _ & _ & _ & _ & _ & _ & _ & Hst).
  eauto.
Qed.

Lemma no_emit_quiet t : quiet t → List.filter is_emit t = [].
Proof.
  induction 1 as [|e t [He _] _ IH]; [done|]. simpl. by rewrite He.
Qed.

(** X8.  Whatever the store does, [/create] never touches the community
    collection, only appends to the notification collection, and writes to
    the challenge collection under the id of the new challenge only, and
    only if the save was not rejected.  It pushes nothing unless it answers
    200: an answer of 404 or 500 means no member was notified live, though
    the challenge, and after a rejected bulk insert some notifications, may
    be stored. *)
Theorem create_frame body w :
  ∃ resp,
    (create body w).2 = inr resp
    ∧ communities (db (create body w).1) = communities (db w)
    ∧ notifications (db w) `prefix_of` notifications (db (create body w).1)
    ∧ (∀ k, k ≠ c_id (built body w) →
         challenges (db (create body w).1) !! k = challenges (db w) !! k)
    ∧ (is_Some (fault (env w) (db_calls w)) → db (create body w).1 = db w)
    ∧ (status resp ≠ 200 → List.filter is_emit (new_trace w (create body w).1) = []).
Proof.
  destruct (create_outcome body w)
    as (resp & pre & ns & pushed & Hr & Htr & Hpre & _ & Hquiet & Hnone & Hns & Hcm & Hch & Hst).
  exists resp. split; [done|]. split; [done|].
  split; [rewrite Hns; by apply prefix_app_r|]. split.
  { intros k Hk. rewrite Hch. destruct (fault _ _); [done|]. by apply lookup_insert_ne. }
  split.
  - intros Hrej. rewrite (Hnone Hrej), app_nil_r in Hns.
    destruct Hrej as [j Hj]. rewrite Hj in Hch.
    destruct (db (create body w).1) as [c m n], (db w) as [c' m' n']; simpl in *. congruence.
  - intros Hne. rewrite (new_trace_app _ _ _ Htr), (Hquiet Hne), app_nil_r.
    rewrite List.filter_app, no_emit_quiet, no_emit_inserts; done.
Qed.

(** ** The order of the pushes *)

Lemma pushed_recipients_app t1 t2 :
  pushed_recipients (t1 ++ t2) = pushed_recipients t1 ++ pushed_recipients t2.
Proof. unfold pushed_recipients. apply bind_app. Qed.

Lemma pushed_recipients_inserts ns : pushed_recipients (map EvInsertNotification ns) = [].
Proof. induction ns as [|n ns IH]; [done|]. exact IH. Qed.

Lemma pushed_recipients_dispatch sockets ns :
  pushed_recipients (ns ≫= live_push sockets)
  = List.filter (reachable sockets) (map n_userId ns).
Proof.
  induction ns as [|n ns IH]; [done|].
  rewrite bind_cons, pushed_recipients_app, IH. simpl.
  unfold live_push, reachable.
  destruct (sockets !! toString (n_userId n)) as [h|]; [destruct (truthy h)|]; done.
Qed.

(** X9.  When a request reaches its dispatch (reliable store, existing
    community, router wired), the pushes go out in the order of
    [community.members]: the recipients of the pushes, in the order of the
    pushes, are the member identities that have a non-empty handle in the
    registry at dispatch time, in member order.  A member listed twice in
    the community is pushed to twice. *)
Theorem pushes_follow_member_order body w comm sockets :
  reliable (env w) →
  communities (db w) !! b_communityId body = Some comm →
  is_Some (io w) →
  userSockets (create body w).1 = Some sockets →
  pushed_recipients (new_trace w (create body w).1)
  = List.filter (reachable sockets) (map m_userId (members comm)).
Proof.
  intros Hrel Hcomm [s Hio] Hus.
  destruct (create_ok body w comm Hrel Hcomm)
    as (w1 & ns & Hrun & Hinv & _ & Htr & _ & Hio1 & _).
  rewrite Hrun in Hus |- *; simpl in Hus |- *.
  rewrite (new_trace_app _ _ _ Htr).
  assert (Hrec : map n_userId ns = map m_userId (members comm)).
  { apply (invites_recipients (invite_doc (built body w) body)); auto. }
  unfold dispatch_events. rewrite Hio1, Hio, Hus.
  rewrite !pushed_recipients_app, pushed_recipients_inserts, pushed_recipients_dispatch.
  by rewrite Hrec.
Qed.

Lemma pushes_follow_member_order_witness :
  pushed_recipients (new_trace w0 (create body0 w0).1) = ["u2"].
Proof.
  rewrite (pushes_follow_member_order body0 w0 c1 sockets0
             scenario_reliable scenario_community (mk_is_Some _ _ eq_refl)).
  - vm_compute; reflexivity.
  - vm_compute; reflexivity.
Defined.

(** ** Listing *)

Lemma documents_spec w c :
  c ∈ documents w ↔ challenges (db w) !! c_id c = Some (c_fields c).
Proof.
  unfold documents. rewrite list_elem_of_fmap. split.
  - intros ([k f] & -> & Hin). simpl. by apply elem_of_map_to_list in Hin.
  - intros H. exists (c_id c, c_fields c). split; [by destruct c|].
    by apply elem_of_map_to_list.
Qed.

Lemma documents_NoDup w : NoDup (documents w).
Proof.
  unfold documents. apply NoDup_fmap_2; [|apply NoDup_map_to_list].
  intros [k f] [k' f'] Heq. by inversion Heq.
Qed.

Lemma get_community_ok cid w :
  fault (env w) (db_calls w) = None →
  get_community cid w =
    (called w,
     inr {| l_status := 200;
            l_json := LChallenges (List.filter (in_community cid) (documents w)) |}).
Proof.
  intros F0. unfold get_community, try_catch, CommunityChallenge_find, bind, store_call, get.
  by rewrite F0.
Qed.

Lemma listed_spec cid w c :
  c ∈ List.filter (in_community cid) (documents w)
  ↔ challenges (db w) !! c_id c = Some (c_fields c) ∧ c_communityId (c_fields c) = cid.
Proof.
  rewrite list_elem_of_In, List.filter_In, <- list_elem_of_In, documents_spec.
  unfold in_community. by rewrite String.eqb_eq.
Qed.

(** X10.  [GET /community/:communityId] never changes the store.  When the
    store answers, the handler answers 200 with exactly the stored challenges
    whose [communityId] is the one of the route, each once: none is missing,
    none of another community is included, and an unknown community gives an
    empty list, not a 404.  When the store rejects the call the answer is
    500. *)
Theorem get_community_lists_exactly cid w :
  db (get_community cid w).1 = db w
  ∧ match fault (env w) (db_calls w) with
    | None =>
        ∃ l, (get_community cid w).2 = inr {| l_status := 200; l_json := LChallenges l |}
             ∧ NoDup l
             ∧ (∀ c, c ∈ l ↔ challenges (db w) !! c_id c = Some (c_fields c)
                              ∧ c_communityId (c_fields c) = cid)
             ∧ ((∀ k f, challenges (db w) !! k = Some f → c_communityId f ≠ cid) → l = [])
    | Some _ =>
        ∃ msg, (get_community cid w).2 = inr {| l_status := 500; l_json := LError msg |}
    end.
Proof.
  destruct (fault (env w) (db_calls w)) as [j|] eqn:F0.
  { unfold get_community, try_catch, CommunityChallenge_find, bind, store_call.
    rewrite F0. simpl. eauto. }
  rewrite get_community_ok by done. simpl.
  split; [done|]. eexists; split; [reflexivity|].
  split; [|split; [apply listed_spec|]].
  - apply NoDup_ListNoDup, List.NoDup_filter, NoDup_ListNoDup, documents_NoDup.
  - intros Hnone.
    destruct (List.filter (in_community cid) (documents w)) as [|c l] eqn:Hl; [done|].
    exfalso. assert (Hc : c ∈ List.filter (in_community cid) (documents w)) by (rewrite Hl; left).
    apply listed_spec in Hc as [Hc Hcid]. by apply (Hnone _ _ Hc).
Qed.

Lemma create_stores_challenge body w :
  reliable (env w) →
  challenges (db (create body w).1) !! c_id (built body w) = Some (c_fields (built body w))
  ∧ env (create body w).1 = env w.
Proof.
  intros Hrel.
  destruct (communities (db w) !! b_communityId body) as [comm|] eqn:Hcomm.
  - destruct (create_ok body w comm Hrel Hcomm) as (w1 & ns & Hrun & _ & Hdb & _ & Henv & _).
    rewrite Hrun; simpl. rewrite Hdb; simpl. split; [apply lookup_insert_eq|done].
  - unfold create, try_catch.
    erewrite bind_ok by apply new_communityChallenge_run.
    erewrite bind_ok by (apply save_ok; apply Hrel).
    erewrite bind_ok by (apply findCommunity_ok; apply Hrel).
    simpl. rewrite Hcomm. simpl. split; [apply lookup_insert_eq|done].
Qed.

(** X11.  With a reliable store, what [/create] saved is what the listing
    of the request's community returns next: the new challenge, with the
    fields of the request and an empty roster, is in the list.  This holds
    when [/create] answered 404 too: the challenge of a community that does
    not exist is listed under that community's id. *)
Theorem created_challenge_is_listed body w :
  reliable (env w) →
  let w' := (create body w).1 in
  ∃ l, (get_community (b_communityId body) w').2
         = inr {| l_status := 200; l_json := LChallenges l |}
       ∧ {| c_id := oid (env w) (oids w);
            c_fields := {| c_communityId := b_communityId body; c_name := b_name body;
                           c_description := b_description body;
                           c_exercises := b_exercises body; c_stake := b_stake body;
                           c_participants := [] |} |} ∈ l.
Proof.
  intros Hrel. simpl.
  destruct (create_stores_challenge body w Hrel) as [Hch Henv].
  rewrite get_community_ok by (rewrite Henv; apply Hrel). simpl.
  eexists; split; [reflexivity|]. apply listed_spec. split; [exact Hch|reflexivity].
Qed.

Lemma created_challenge_is_listed_witness :
  ∃ l, (get_community "C9" (create body_nowhere w0).1).2
         = inr {| l_status := 200; l_json := LChallenges l |}
       ∧ built body_nowhere w0 ∈ l.
Proof.
  exact (created_challenge_is_listed body_nowhere w0 scenario_reliable).
Defined.

(** * Properties of the browser side *)

(** ** Choosing goals *)

Lemma includes_spec g gs : Input.includes g gs = true ↔ g ∈ gs.
Proof.
  unfold Input.includes. rewrite List.existsb_exists. split.
  - intros (x & Hx & Heq). apply String.eqb_eq in Heq as ->. by apply list_elem_of_In.
  - intros Hg. exists g. split; [by apply list_elem_of_In|apply String.eqb_refl].
Qed.

Lemma includes_false g gs : Input.includes g gs = false ↔ g ∉ gs.
Proof.
  rewrite <- includes_spec. destruct (Input.includes g gs); split; done.
Qed.

Lemma removed_spec g g' gs :
  g' ∈ List.filter (λ x, negb (String.eqb x g)) gs ↔ g' ∈ gs ∧ g' ≠ g.
Proof.
  rewrite list_elem_of_In, List.filter_In, <- list_elem_of_In.
  rewrite negb_true_iff, String.eqb_neq. done.
Qed.

Lemma removed_absent g gs :
  g ∉ gs → List.filter (λ x, negb (String.eqb x g)) gs = gs.
Proof.
  induction gs as [|x gs IH]; [done|]. intros Hg. simpl.
  apply not_elem_of_cons in Hg as [Hne Hg].
  assert (String.eqb x g = false) as -> by (apply String.eqb_neq; congruence).
  simpl. by rewrite IH.
Qed.

(** X12.  What a click on a goal does, goal by goal: after [toggleGoal g]
    the goal [g] is selected exactly when it was not selected and fewer than
    two goals were; every other goal is selected exactly when it was; and
    the rest of the form is untouched. *)
Theorem toggleGoal_membership g prev :
  let next := Input.toggleGoal g prev in
  (g ∈ Input.goals next ↔ (g ∉ Input.goals prev) ∧ (length (Input.goals prev) < 2)%nat)
  ∧ (∀ g', g' ≠ g → (g' ∈ Input.goals next ↔ g' ∈ Input.goals prev))
  ∧ Input.height next = Input.height prev ∧ Input.weight next = Input.weight prev
  ∧ Input.bmi next = Input.bmi prev ∧ Input.age next = Input.age prev
  ∧ Input.gender next = Input.gender prev.
Proof.
  unfold Input.toggleGoal.
  destruct (Input.includes g (Input.goals prev)) eqn:Hin.
  - apply includes_spec in Hin. simpl. split; [|split; [|done]].
    + rewrite removed_spec. split; [by intros [_ ?]|by intros [? _]].
    + intros g' Hne. rewrite removed_spec. split; [by intros [? _]|done].
  - apply includes_false in Hin.
    destruct (Nat.ltb (length (Input.goals prev)) 2) eqn:Hlen.
    + apply Nat.ltb_lt in Hlen. simpl. split; [|split; [|done]].
      * split; [done|]. intros _. apply elem_of_app. right. by left.
      * intros g' Hne. rewrite elem_of_app, list_elem_of_singleton. split; [|auto].
        by intros [?|?].
    + apply Nat.ltb_ge in Hlen. simpl. split; [|done].
      split; [done|]. intros [_ ?]. lia.
Qed.

Lemma toggleGoal_invariant g prev :
  (length (Input.goals prev) ≤ 2)%nat → NoDup (Input.goals prev) →
  (length (Input.goals (Input.toggleGoal g prev)) ≤ 2)%nat
  ∧ NoDup (Input.goals (Input.toggleGoal g prev)).
Proof.
  intros Hlen Hnd. unfold Input.toggleGoal.
  destruct (Input.includes g (Input.goals prev)) eqn:Hin; simpl.
  - split.
    + etrans; [apply List.filter_length_le|done].
    + by apply NoDup_ListNoDup, List.NoDup_filter, NoDup_ListNoDup.
  - apply includes_false in Hin.
    destruct (Nat.ltb (length (Input.goals prev)) 2) eqn:Hlt; simpl; [|done].
    apply Nat.ltb_lt in Hlt. split.
    + rewrite length_app. simpl. lia.
    + apply NoDup_app. split; [done|]. split; [|apply NoDup_singleton].
      intros x Hx Hx'. apply list_elem_of_singleton in Hx' as ->. done.
Qed.

(** X13.  However the user clicks, starting from a selection of at most
    two distinct goals (the form starts with none), the selection stays at
    most two distinct goals. *)
Theorem clicks_keep_at_most_two_goals goalIds start :
  (length (Input.goals start) ≤ 2)%nat →
  NoDup (Input.goals start) →
  (length (Input.goals (Input.clicks goalIds start)) ≤ 2)%nat
  ∧ NoDup (Input.goals (Input.clicks goalIds start)).
Proof.
  unfold Input.clicks. revert start.
  induction goalIds as [|g gs IH]; intros start Hlen Hnd; [done|].
  simpl. destruct (toggleGoal_invariant g start Hlen Hnd) as [Hlen' Hnd'].
  by apply IH.
Qed.

Lemma clicks_keep_at_most_two_goals_witness :
  (length (Input.goals (Input.clicks ["weight-loss"; "endurance"; "flexibility"] Input.initial))
   ≤ 2)%nat.
Proof.
  apply (clicks_keep_at_most_two_goals
           ["weight-loss"; "endurance"; "flexibility"] Input.initial).
  - simpl; lia.
  - constructor.
Defined.

(** X14.  Clicking a goal that is not selected and clicking it again gives
    the form back as it was, whether the first click selected the goal or,
    two goals being selected already, did nothing. *)
Theorem toggleGoal_twice_restores g prev :
  g ∉ Input.goals prev →
  Input.toggleGoal g (Input.toggleGoal g prev) = prev.
Proof.
  intros Hg. pose proof Hg as Hin. apply includes_false in Hin.
  unfold Input.toggleGoal at 2. rewrite Hin.
  destruct (Nat.ltb (length (Input.goals prev)) 2) eqn:Hlt.
  - unfold Input.toggleGoal; simpl.
    assert (Input.includes g (Input.goals prev ++ [g]) = true) as ->.
    { apply includes_spec, elem_of_app. right. by left. }
    rewrite List.filter_app, removed_absent by done. simpl.
    rewrite String.eqb_refl. simpl. rewrite app_nil_r. by destruct prev.
  - unfold Input.toggleGoal. by rewrite Hin, Hlt.
Qed.

Lemma toggleGoal_twice_restores_witness :
  Input.toggleGoal "endurance" (Input.toggleGoal "endurance" Input.initial) = Input.initial.
Proof.
  apply (toggleGoal_twice_restores "endurance" Input.initial). simpl. apply not_elem_of_nil.
Defined.

(** ** Validating the form *)

Lemma validateForm_keys formData k :
  is_Some ((Input.validateForm formData).1 !! k) →
  k ∈ ["height"; "weight"; "age"; "gender"; "goals"].
Proof.
  unfold Input.validateForm. cbv zeta. cbn [fst]. intros [v Hv].
  destruct (truthy (Input.height formData)), (truthy (Input.weight formData)),
    (truthy (Input.age formData)), (truthy (Input.gender formData)),
    (Nat.eqb (length (Input.goals formData)) 0);
    repeat (apply lookup_insert_Some in Hv as [[<- _]|[_ Hv]]; [by repeat constructor|]);
    by rewrite lookup_empty in Hv.
Qed.

(** X15.  [validateForm] and [isFormValid] agree on every form: the first
    returns true exactly when the second returns a truthy value.  The errors
    [validateForm] reports are those of the fields that are empty, with the
    messages of the source, and nothing else; so a form whose submit button
    is enabled validates without errors, has an email, and is not being
    submitted. *)
Theorem validateForm_agrees_with_isFormValid formData :
  let errors := (Input.validateForm formData).1 in
  (Input.validateForm formData).2 = Input.to_boolean (Input.isFormValid formData)
  ∧ errors !! "height"
    = (if truthy (Input.height formData) then None else Some "Height is required")
  ∧ errors !! "weight"
    = (if truthy (Input.weight formData) then None else Some "Weight is required")
  ∧ errors !! "age"
    = (if truthy (Input.age formData) then None else Some "Age is required")
  ∧ errors !! "gender"
    = (if truthy (Input.gender formData) then None else Some "Please select a gender")
  ∧ errors !! "goals"
    = (match Input.goals formData with
       | [] => Some "Please select at least one goal"
       | _ => None
       end)
  ∧ (∀ k, is_Some (errors !! k) → k ∈ ["height"; "weight"; "age"; "gender"; "goals"])
  ∧ (∀ isSubmitting email,
       Input.submit_disabled formData isSubmitting email = false →
       Input.validateForm formData = (∅, true)
       ∧ isSubmitting = false
       ∧ ∃ e, email = Some e ∧ truthy e = true).
Proof.
  destruct formData as [h w b a g gs].
  destruct h as [|ch h], w as [|cw w], a as [|ca a], g as [|cg g], gs as [|g0 gs];
    cbv zeta;
    (split; [vm_compute; reflexivity|]);
    do 5 (split; [vm_compute; reflexivity|]);
    (split; [intros k; apply validateForm_keys|]);
    intros s e Hoff; vm_compute in Hoff; try discriminate Hoff;
    (split; [vm_compute; reflexivity|]);
    destruct s; try discriminate Hoff;
    (split; [reflexivity|]);
    destruct e as [e|]; try discriminate Hoff;
    exists e; (split; [reflexivity|]);
    destruct e; [discriminate Hoff|reflexivity].
Qed.

(** ** Cutting and padding strings *)

Lemma str_length_app a b : String.length (a +:+ b) = String.length a + String.length b.
Proof. induction a as [|c a IH]; simpl; [done|]. by rewrite IH. Qed.

Lemma str_take_length n s : String.length (str_take n s) = Nat.min n (String.length s).
Proof.
  revert s; induction n as [|n IH]; intros [|c s]; simpl; rewrite ?IH; try lia; done.
Qed.

Lemma str_drop_length n s : String.length (str_drop n s) = String.length s - n.
Proof.
  revert s; induction n as [|n IH]; intros [|c s]; simpl; rewrite ?IH; lia.
Qed.

Lemma str_take_drop n s : str_take n s +:+ str_drop n s = s.
Proof.
  revert s; induction n as [|n IH]; intros [|c s]; simpl; try done.
  change (String c (str_take n s +:+ str_drop n s) = String c s).
  f_equal. apply IH.
Qed.

Lemma str_take_all n s : (String.length s ≤ n)%nat → str_take n s = s.
Proof.
  revert s; induction n as [|n IH]; intros [|c s]; simpl; intros H; try done; [lia|].
  rewrite IH; [done|lia].
Qed.

Lemma str_drop_drop n m s : str_drop n (str_drop m s) = str_drop (m + n) s.
Proof.
  revert n s; induction m as [|m IH]; intros n [|c s]; simpl; try done.
  by destruct n.
Qed.

Lemma str_app_inj a a' r r' :
  String.length a = String.length a' → a +:+ r = a' +:+ r' → a = a' ∧ r = r'.
Proof.
  revert a'; induction a as [|c a IH]; intros [|c' a']; simpl; intros Hlen Heq;
    try done.
  change (String c (a +:+ r) = String c' (a' +:+ r')) in Heq.
  inversion Heq; subst. destruct (IH a') as [-> ->]; [lia|done|done].
Qed.

Lemma substring_head n s : substring 0 (Z.of_nat n) s = str_take n s.
Proof.
  unfold substring.
  assert (clamp (String.length s) 0 = 0) as -> by (unfold clamp; lia).
  assert (clamp (String.length s) (Z.of_nat n) = Nat.min n (String.length s)) as ->
    by (unfold clamp; lia).
  simpl. rewrite Nat.sub_0_r.
  destruct (Nat.le_ge_cases n (String.length s)).
  - by rewrite Nat.min_l.
  - rewrite Nat.min_r by done. by rewrite !str_take_all.
Qed.

Lemma substring_tail n s :
  substring_from (Z.of_nat (String.length s) - Z.of_nat n) s
  = str_drop (String.length s - n) s.
Proof.
  unfold substring_from, substring.
  assert (clamp (String.length s) (Z.of_nat (String.length s) - Z.of_nat n)
          = String.length s - n) as -> by (unfold clamp; lia).
  assert (clamp (String.length s) (Z.of_nat (String.length s)) = String.length s) as ->
    by (unfold clamp; lia).
  rewrite Nat.min_l, Nat.max_r by lia.
  apply str_take_all. rewrite str_drop_length. lia.
Qed.

(** ** The wallet button *)

(** X16.  For an address that is neither empty nor the placeholder
    [Connect Wallet], [truncateAddress] shows its first six characters,
    three dots and its last four.  On an address of ten characters or more
    these are a prefix and a disjoint suffix and the result has thirteen
    characters.  A shorter address is not shortened: head and tail overlap,
    and the result is longer than the address exactly when the address has
    fewer than thirteen characters. *)
Theorem truncateAddress_shape a :
  truthy a = true →
  a ≠ "Connect Wallet" →
  ∃ t,
    ConnectWallet.truncateAddress (Some a) = Some t
    ∧ t = str_take 6 a +:+ "..." +:+ str_drop (String.length a - 4) a
    ∧ String.length t = (Nat.min 6 (String.length a) + 3 + Nat.min 4 (String.length a))%nat
    ∧ ((10 ≤ String.length a)%nat →
       String.length t = 13
       ∧ ∃ head mid tail,
           a = head +:+ mid +:+ tail
           ∧ String.length head = 6 ∧ String.length tail = 4
           ∧ t = head +:+ "..." +:+ tail)
    ∧ ((String.length a < String.length t)%nat ↔ (String.length a < 13)%nat).
Proof.
  intros Ht Hne. unfold ConnectWallet.truncateAddress. rewrite Ht.
  apply String.eqb_neq in Hne. rewrite Hne. simpl negb. simpl orb.
  change 6%Z with (Z.of_nat 6). change 4%Z with (Z.of_nat 4).
  rewrite substring_head, substring_tail.
  eexists; split; [reflexivity|]. split; [reflexivity|].
  assert (Hlen : String.length (str_take 6 a +:+ "..." +:+ str_drop (String.length a - 4) a)
                 = (Nat.min 6 (String.length a) + 3 + Nat.min 4 (String.length a))%nat).
  { rewrite !str_length_app, str_take_length, str_drop_length.
    change (String.length "...") with 3. lia. }
  split; [exact Hlen|]. split; [|rewrite Hlen; lia].
  intros Hten. split; [rewrite Hlen; lia|].
  exists (str_take 6 a), (str_take (String.length a - 10) (str_drop 6 a)),
    (str_drop (String.length a - 4) a).
  split; [|split; [rewrite str_take_length; lia|split; [rewrite str_drop_length; lia|done]]].
  rewrite <- (str_take_drop 6 a) at 1. f_equal.
  rewrite <- (str_take_drop (String.length a - 10) (str_drop 6 a)) at 1. f_equal.
  rewrite str_drop_drop. f_equal. lia.
Qed.

Lemma truncateAddress_shape_witness :
  ConnectWallet.truncateAddress (Some "0x52908400098527886E0F7030069857D2E4169EE7")
  = Some "0x5290...9EE7".
Proof.
  destruct (truncateAddress_shape "0x52908400098527886E0F7030069857D2E4169EE7")
    as (t & Ht & -> & _).
  - reflexivity.
  - discriminate.
  - exact Ht.
Defined.

(** ** The challenge timer *)

Lemma pad2_length z :
  (0 ≤ z < 100)%Z → String.length (padStart 2 zero (pretty z)) = 2.
Proof.
  intros Hz.
  assert (Hall : forallb (λ n, Nat.eqb (String.length (padStart 2 zero (pretty (Z.of_nat n)))) 2)
                   (seq 0 100) = true) by (vm_compute; reflexivity).
  rewrite List.forallb_forall in Hall.
  specialize (Hall (Z.to_nat z)). rewrite Z2Nat.id in Hall by lia.
  apply Nat.eqb_eq, Hall, List.in_seq. lia.
Qed.

Lemma pad2_inj z z' :
  (0 ≤ z < 100)%Z → (0 ≤ z' < 100)%Z →
  padStart 2 zero (pretty z) = padStart 2 zero (pretty z') → z = z'.
Proof.
  intros Hz Hz' Heq.
  assert (Hall : forallb (λ n, forallb (λ m,
                     implb (String.eqb (padStart 2 zero (pretty (Z.of_nat n)))
                                       (padStart 2 zero (pretty (Z.of_nat m))))
                           (Nat.eqb n m)) (seq 0 100)) (seq 0 100) = true)
    by (vm_compute; reflexivity).
  rewrite List.forallb_forall in Hall.
  specialize (Hall (Z.to_nat z)). rewrite List.forallb_forall in Hall.
  specialize (Hall ltac:(apply List.in_seq; lia) (Z.to_nat z') ltac:(apply List.in_seq; lia)).
  rewrite !Z2Nat.id in Hall by lia. rewrite Heq, String.eqb_refl in Hall.
  apply Nat.eqb_eq in Hall. lia.
Qed.

Lemma year_length z : (1000 ≤ z ≤ 9999)%Z → String.length (pretty z) = 4.
Proof.
  intros Hz.
  assert (Hall : forallb (λ n, Nat.eqb (String.length (pretty (1000 + Z.of_nat n)%Z)) 4)
                   (seq 0 (90 * 100)) = true) by (vm_compute; reflexivity).
  rewrite List.forallb_forall in Hall.
  specialize (Hall (Z.to_nat (z - 1000))).
  replace (1000 + Z.of_nat (Z.to_nat (z - 1000)))%Z with z in Hall by lia.
  apply Nat.eqb_eq, Hall, List.in_seq. lia.
Qed.

(** X17.  While less than a hundred hours remain, [calculateTimeLeft] only
    sets the display, to hours, minutes and seconds that add up to the
    remaining time rounded down to the second, with minutes and seconds
    below sixty, each shown with exactly two digits; it neither stops the
    timer nor asks for the challenge to be deleted. *)
Theorem calculateTimeLeft_counts_down midnightSameDay now challengeId :
  (0 < midnightSameDay - now < 360000000)%Z →
  ∃ h m s ms : Z,
    TimerActiveChallenge.calculateTimeLeft midnightSameDay now challengeId
    = [TimerActiveChallenge.SetTimeLeft
         {| TimerActiveChallenge.hours := padStart 2 zero (pretty h);
            TimerActiveChallenge.minutes := padStart 2 zero (pretty m);
            TimerActiveChallenge.seconds := padStart 2 zero (pretty s) |}]
    ∧ (midnightSameDay - now = h * 3600000 + m * 60000 + s * 1000 + ms)%Z
    ∧ (0 ≤ h < 100 ∧ 0 ≤ m < 60 ∧ 0 ≤ s < 60 ∧ 0 ≤ ms < 1000)%Z
    ∧ String.length (padStart 2 zero (pretty h)) = 2
    ∧ String.length (padStart 2 zero (pretty m)) = 2
    ∧ String.length (padStart 2 zero (pretty s)) = 2.
Proof.
  intros Hr. unfold TimerActiveChallenge.calculateTimeLeft.
  set (r := (midnightSameDay - now)%Z) in *. cbv zeta.
  assert ((r <=? 0)%Z = false) as -> by lia.
  change (1000 * 60 * 60)%Z with 3600000%Z. change (1000 * 60)%Z with 60000%Z.
  rewrite !Z.rem_mod_nonneg by lia.
  set (h := (r `div` 3600000)%Z).
  set (m := ((r `mod` 3600000) `div` 60000)%Z).
  set (s := ((r `mod` 60000) `div` 1000)%Z).
  assert (Hh : (0 ≤ h < 100)%Z) by (subst h; Z.div_mod_to_equations; lia).
  assert (Hm : (0 ≤ m < 60)%Z) by (subst m; Z.div_mod_to_equations; lia).
  assert (Hs : (0 ≤ s < 60)%Z) by (subst s; Z.div_mod_to_equations; lia).
  exists h, m, s, (r `mod` 1000)%Z.
  split; [reflexivity|]. split; [subst h m s; Z.div_mod_to_equations; lia|].
  split; [Z.div_mod_to_equations; lia|].
  rewrite !pad2_length by lia. done.
Qed.

Lemma calculateTimeLeft_counts_down_witness :
  ∃ h m s ms : Z,
    TimerActiveChallenge.calculateTimeLeft 86400000 3723500 "ch1"
    = [TimerActiveChallenge.SetTimeLeft
         {| TimerActiveChallenge.hours := padStart 2 zero (pretty h);
            TimerActiveChallenge.minutes := padStart 2 zero (pretty m);
            TimerActiveChallenge.seconds := padStart 2 zero (pretty s) |}]
    ∧ (86400000 - 3723500 = h * 3600000 + m * 60000 + s * 1000 + ms)%Z
    ∧ (0 ≤ h < 100 ∧ 0 ≤ m < 60 ∧ 0 ≤ s < 60 ∧ 0 ≤ ms < 1000)%Z
    ∧ String.length (padStart 2 zero (pretty h)) = 2
    ∧ String.length (padStart 2 zero (pretty m)) = 2
    ∧ String.length (padStart 2 zero (pretty s)) = 2.
Proof.
  apply (calculateTimeLeft_counts_down 86400000 3723500 "ch1"). lia.
Defined.

(** X18.  For the getter values of a valid date of a four-digit year,
    [formatDateTime] gives a date of exactly ten characters and a time of
    exactly eight, and the pair determines the six values: two instants that
    differ in their day, month, year, hour, minute or second are never shown
    alike. *)
Theorem formatDateTime_fixed_width_and_injective d d' :
  TimerActiveChallenge.in_range d →
  TimerActiveChallenge.in_range d' →
  String.length (TimerActiveChallenge.formatDateTime d).1 = 10
  ∧ String.length (TimerActiveChallenge.formatDateTime d).2 = 8
  ∧ (TimerActiveChallenge.formatDateTime d = TimerActiveChallenge.formatDateTime d' → d = d').
Proof.
  intros (Hd & Hm & Hy & Hh & Hmi & Hs) (Hd' & Hm' & Hy' & Hh' & Hmi' & Hs').
  unfold TimerActiveChallenge.formatDateTime. cbv zeta. cbn [fst snd].
  split; [|split].
  - rewrite !str_length_app, !pad2_length, year_length by lia. reflexivity.
  - rewrite !str_length_app, !pad2_length by lia. reflexivity.
  - intros Heq. inversion Heq as [[Hdate Htime]].
    apply str_app_inj in Hdate as [Hday Hdate]; [|by rewrite !pad2_length by lia].
    apply (str_app_inj "/" "/") in Hdate as [_ Hdate]; [|done].
    apply str_app_inj in Hdate as [Hmonth Hdate]; [|by rewrite !pad2_length by lia].
    apply (str_app_inj "/" "/") in Hdate as [_ Hyear]; [|done].
    apply str_app_inj in Htime as [Hhours Htime]; [|by rewrite !pad2_length by lia].
    apply (str_app_inj ":" ":") in Htime as [_ Htime]; [|done].
    apply str_app_inj in Htime as [Hminutes Htime]; [|by rewrite !pad2_length by lia].
    apply (str_app_inj ":" ":") in Htime as [_ Hseconds]; [|done].
    apply pad2_inj in Hday, Hmonth, Hhours, Hminutes, Hseconds; try lia.
    apply (inj pretty) in Hyear.
    destruct d, d'; simpl in *. f_equal; lia.
Qed.

Lemma formatDateTime_fixed_width_and_injective_witness :
  String.length
    (TimerActiveChallenge.formatDateTime
       {| TimerActiveChallenge.getDate := 5; TimerActiveChallenge.getMonth := 0;
          TimerActiveChallenge.getFullYear := 2025; TimerActiveChallenge.getHours := 7;
          TimerActiveChallenge.getMinutes := 30; TimerActiveChallenge.getSeconds := 9 |}).1
  = 10.
Proof.
  set (d := {| TimerActiveChallenge.getDate := 5; TimerActiveChallenge.getMonth := 0;
               TimerActiveChallenge.getFullYear := 2025; TimerActiveChallenge.getHours := 7;
               TimerActiveChallenge.getMinutes := 30;
               TimerActiveChallenge.getSeconds := 9 |}).
  destruct (formatDateTime_fixed_width_and_injective d d) as (Hwidth & _).
  - unfold TimerActiveChallenge.in_range; simpl; lia.
  - unfold TimerActiveChallenge.in_range; simpl; lia.
  - exact Hwidth.
Defined.
